(** * changelog-cli: the changelog pipeline and its history store

    A shallow embedding of [src/changelog.js] (classifier and the two
    renderers) and of [src/db/*.js] (the JSON-file store), with the
    properties the specification states about them.

    Conventions of the model.
    - A JavaScript string is the [string] of its UTF-8 bytes. The class
      [\w] and the [i] flag of the patterns of the program concern the
      ASCII letters only, as they do in the runtime; white space ([\s],
      [trim]) and [toLowerCase] also see the characters outside the ASCII
      range that the runtime sees. A position ([substring], [charAt],
      [slice]) counts bytes, which is the runtime's count on the ASCII text
      that the code cuts: a type made of [\w] characters, a line after its
      leading [# ], and a hash, which is taken to be ASCII.
    - A [throw] is a value [Throw msg] of the type [Result]; [try]/[catch]
      is a [match] on it.
    - The network, the clock and the language-model service are explicit
      arguments. *)

From Stdlib Require Import String Ascii List ZArith NArith Lia Bool Arith.
From Stdlib Require Import Permutation Sorted DecimalString.
Import ListNotations.

Local Open Scope list_scope.
Local Open Scope string_scope.

(** ** Exceptions *)

Inductive Result (A : Type) : Type :=
| Ok (a : A)
| Throw (msg : string).

Arguments Ok {A} a.
Arguments Throw {A} msg.

Definition bind {A B : Type} (r : Result A) (k : A -> Result B) : Result B :=
  match r with
  | Ok a => k a
  | Throw msg => Throw msg
  end.

Notation "x <- r ;; k" := (bind r (fun x => k))
  (at level 61, r at next level, right associativity).

(** [forEach] with a body that may throw: the first exception ends the loop. *)
Fixpoint forEachM {A S : Type} (body : S -> A -> Result S) (l : list A) (s : S)
  : Result S :=
  match l with
  | [] => Ok s
  | x :: l' => s' <- body s x ;; forEachM body l' s'
  end.

(** ** Strings of the runtime *)

Module JsString.

Definition LF : string := String "010" "".

Definition code (c : ascii) : N := N_of_ascii c.

Definition between (lo hi : N) (c : ascii) : bool :=
  ((lo <=? code c) && (code c <=? hi))%N.

(** A character of one byte. *)
Definition isAscii (c : ascii) : bool := (code c <? 128)%N.

Definition isUpper : ascii -> bool := between 65 90.
Definition isLower : ascii -> bool := between 97 122.
Definition isDigit : ascii -> bool := between 48 57.

(** The class [\w]: letters, digits and the underscore. *)
Definition isWordChar (c : ascii) : bool :=
  isUpper c || isLower c || isDigit c || (c =? "_")%char.

(** White space, as [\s] and [trim] have it, by the length of the
    character in UTF-8. One byte: TAB, LF, VT, FF, CR and the space. *)
Definition space1 (c1 : ascii) : bool :=
  between 9 13 c1 || (c1 =? " ")%char.

(** Two bytes: U+00A0, the no-break space. *)
Definition space2 (c1 c2 : ascii) : bool :=
  ((code c1 =? 194) && (code c2 =? 160))%N.

(** Three bytes: U+1680, U+2000 to U+200A, U+2028, U+2029, U+202F, U+205F,
    U+3000 and U+FEFF. *)
Definition space3 (c1 c2 c3 : ascii) : bool :=
  ((code c1 =? 225) && (code c2 =? 154) && (code c3 =? 128)
   || (code c1 =? 226) && (code c2 =? 128)
      && ((128 <=? code c3) && (code c3 <=? 138)
          || (code c3 =? 168) || (code c3 =? 169) || (code c3 =? 175))
   || (code c1 =? 226) && (code c2 =? 129) && (code c3 =? 159)
   || (code c1 =? 227) && (code c2 =? 128) && (code c3 =? 128)
   || (code c1 =? 239) && (code c2 =? 187) && (code c3 =? 191))%N.

(** The text after one white-space character at the start of [s], if [s]
    starts with one. *)
Definition leadingSpace (s : string) : option string :=
  match s with
  | String c1 s1 =>
      if space1 c1 then Some s1
      else
        match s1 with
        | String c2 s2 =>
            if space2 c1 c2 then Some s2
            else
              match s2 with
              | String c3 s3 => if space3 c1 c2 c3 then Some s3 else None
              | EmptyString => None
              end
        | EmptyString => None
        end
  | EmptyString => None
  end.

(** What a greedy [\s*] leaves of [s]; also [s.trimStart()]. *)
Fixpoint skipSpace (s : string) : string :=
  match s with
  | String c1 s1 =>
      if space1 c1 then skipSpace s1
      else
        match s1 with
        | String c2 s2 =>
            if space2 c1 c2 then skipSpace s2
            else
              match s2 with
              | String c3 s3 => if space3 c1 c2 c3 then skipSpace s3 else s
              | EmptyString => s
              end
        | EmptyString => s
        end
  | EmptyString => s
  end.

Definition toLowerChar (c : ascii) : ascii :=
  if isUpper c then ascii_of_N (code c + 32) else c.

Definition toUpperChar (c : ascii) : ascii :=
  if isLower c then ascii_of_N (code c - 32) else c.

(** The ASCII letters in lower case, character by character: the two
    cases that a pattern under the [i] flag takes for one. *)
Fixpoint lowerAscii (s : string) : string :=
  match s with
  | EmptyString => EmptyString
  | String c s' => String (toLowerChar c) (lowerAscii s')
  end.

(** [s.toLowerCase()]. Beside the ASCII capitals, two characters have a
    lower case with an ASCII letter in it: U+212A, the Kelvin sign, gives
    [k], and U+0130, the dotted capital I, gives [i] followed by U+0307.
    Any other character outside the ASCII range is kept as it is: its
    lower case is outside that range as well, and the program compares the
    result with ASCII keywords only. *)
Fixpoint toLowerCase (s : string) : string :=
  match s with
  | EmptyString => EmptyString
  | String c1 s1 =>
      match s1 with
      | String c2 s2 =>
          if ((code c1 =? 196) && (code c2 =? 176))%N
          then String "i" (String "204" (String "135" (toLowerCase s2)))
          else
            match s2 with
            | String c3 s3 =>
                if ((code c1 =? 226) && (code c2 =? 132) && (code c3 =? 170))%N
                then String "k" (toLowerCase s3)
                else String (toLowerChar c1) (toLowerCase s1)
            | EmptyString => String (toLowerChar c1) (toLowerCase s1)
            end
      | EmptyString => String (toLowerChar c1) (toLowerCase s1)
      end
  end.

(** [s.startsWith(p)] *)
Fixpoint startsWith (s p : string) : bool :=
  match p, s with
  | EmptyString, _ => true
  | String _ _, EmptyString => false
  | String a p', String b s' => (a =? b)%char && startsWith s' p'
  end.

(** [s.includes(t)] *)
Fixpoint includes (s t : string) : bool :=
  startsWith s t ||
  match s with
  | EmptyString => false
  | String _ s' => includes s' t
  end.

(** [s.substring(0, n)] *)
Fixpoint take (n : nat) (s : string) : string :=
  match n, s with
  | S n', String c s' => String c (take n' s')
  | _, _ => EmptyString
  end.

(** [s.slice(n)] *)
Fixpoint drop (n : nat) (s : string) : string :=
  match n, s with
  | S n', String _ s' => drop n' s'
  | _, _ => s
  end.

(** The characters of a string, for predicates over all of them. *)
Fixpoint chars (s : string) : list ascii :=
  match s with
  | EmptyString => []
  | String c s' => c :: chars s'
  end.

(** A leading run of characters of a class, and what follows it: how a
    greedy [c+] or [c*] splits its input. *)
Fixpoint span (p : ascii -> bool) (s : string) : string * string :=
  match s with
  | EmptyString => (EmptyString, EmptyString)
  | String c s' =>
      if p c then let (w, r) := span p s' in (String c w, r)
      else (EmptyString, s)
  end.

End JsString.

Import JsString.

(** ** The regular expressions of [changelog.js]

    Every pattern of the file is anchored at the start of the message and
    has one way to match: a class never overlaps the character that must
    follow it, so the greedy choice is the only one and the matcher below
    needs no backtracking apart from the optional scope. *)

Module Regex.

(** [:] *)
Definition colon (s : string) : option string :=
  match s with
  | String ":" r => Some r
  | _ => None
  end.

(** [[^)]*\)] : up to and including the first closing parenthesis. *)
Fixpoint closeParen (s : string) : option string :=
  match s with
  | EmptyString => None
  | String c s' => if (c =? ")")%char then Some s' else closeParen s'
  end.

(** [\([^)]+\)] : a parenthesised scope, at least one character long. *)
Definition scope (s : string) : option string :=
  match s with
  | String "(" (String c s') => if (c =? ")")%char then None else closeParen s'
  | _ => None
  end.

(** [(\([^)]+\))?:] : the scope is tried first, then the bare colon. *)
Definition scopeColon (s : string) : option string :=
  match scope s with
  | Some r =>
      match colon r with
      | Some r' => Some r'
      | None => colon s
      end
  | None => colon s
  end.

(** [message.match(/^(\w+)(\([^)]+\))?:/)] : capture group 1 and the text
    after the match, [None] for JavaScript's [null]. *)
Definition conventional (message : string) : option (string * string) :=
  let (w, r) := span isWordChar message in
  match w with
  | EmptyString => None
  | String _ _ =>
      match scopeColon r with
      | Some rest => Some (w, rest)
      | None => None
      end
  end.

(** A literal keyword under the [i] flag; [kw] is given in lower case. *)
Fixpoint keyword (kw s : string) : option string :=
  match kw, s with
  | EmptyString, _ => Some s
  | String _ _, EmptyString => None
  | String k kw', String c s' =>
      if (toLowerChar c =? k)%char then keyword kw' s' else None
  end.

(** [message.replace(/^kw(\([^)]+\))?:\s*/i, '')] *)
Definition stripPrefix (kw message : string) : string :=
  match keyword kw message with
  | Some r =>
      match scopeColon r with
      | Some rest => skipSpace rest
      | None => message
      end
  | None => message
  end.

End Regex.

(** ** Arrays of the runtime *)

Module JsArray.

(** [l.findIndex(p)], [None] for -1. *)
Fixpoint findIndex {A : Type} (p : A -> bool) (l : list A) : option nat :=
  match l with
  | [] => None
  | x :: l' => if p x then Some 0%nat else option_map S (findIndex p l')
  end.

(** [l[i] = f(l[i])] for an index inside the list. *)
Fixpoint updateAt {A : Type} (i : nat) (f : A -> A) (l : list A) : list A :=
  match l, i with
  | [], _ => []
  | x :: l', O => f x :: l'
  | x :: l', S i' => x :: updateAt i' f l'
  end.

(** Stable insertion sort; [le x y] says that [x] may stand before [y].
    [Array.prototype.sort] is stable, so under a comparator that orders by
    a key it yields this list. *)
Fixpoint insertBy {A : Type} (le : A -> A -> bool) (x : A) (l : list A)
  : list A :=
  match l with
  | [] => [x]
  | y :: l' => if le x y then x :: y :: l' else y :: insertBy le x l'
  end.

Fixpoint sortBy {A : Type} (le : A -> A -> bool) (l : list A) : list A :=
  match l with
  | [] => []
  | x :: l' => insertBy le x (sortBy le l')
  end.

(** [l.sort(cmp)] : [a] stays in front of a later [b] unless [cmp(a, b)] is
    positive. *)
Definition sortWith {A : Type} (cmp : A -> A -> Z) (l : list A) : list A :=
  sortBy (fun a b => (cmp a b <=? 0)%Z) l.

End JsArray.

Import JsArray.

(** ** Object literals used as maps

    [const types = {}] is an ordinary object: its own properties, kept in
    the order they were created, in front of [Object.prototype]. *)

Module JsObject.

Definition Obj (V : Type) : Type := list (string * V).

(** The property names every object literal inherits. *)
Definition objectPrototype : list string :=
  [ "constructor"; "__defineGetter__"; "__defineSetter__"; "hasOwnProperty";
    "__lookupGetter__"; "__lookupSetter__"; "isPrototypeOf";
    "propertyIsEnumerable"; "toString"; "valueOf"; "__proto__";
    "toLocaleString" ].

Definition inherited (k : string) : bool :=
  existsb (String.eqb k) objectPrototype.

(** What [o[k]] evaluates to. *)
Inductive Lookup (V : Type) : Type :=
| Own (v : V)
| Builtin (k : string)
| Undefined.

Arguments Own {V} v.
Arguments Builtin {V} k.
Arguments Undefined {V}.

Fixpoint getOwn {V : Type} (o : Obj V) (k : string) : option V :=
  match o with
  | [] => None
  | (k', v) :: o' => if String.eqb k' k then Some v else getOwn o' k
  end.

Definition get {V : Type} (o : Obj V) (k : string) : Lookup V :=
  match getOwn o k with
  | Some v => Own v
  | None => if inherited k then Builtin k else Undefined
  end.

(** [o[k] = v] : an existing own property keeps its place, a new one goes
    last. *)
Fixpoint set {V : Type} (o : Obj V) (k : string) (v : V) : Obj V :=
  match o with
  | [] => [(k, v)]
  | (k', v') :: o' =>
      if String.eqb k' k then (k', v) :: o' else (k', v') :: set o' k v
  end.

(** The value of a decimal numeral. *)
Definition digitsValue (s : string) : N :=
  fold_left (fun acc c => (10 * acc + (code c - 48))%N) (chars s) 0%N.

(** A property name is an array index when it is the canonical decimal
    numeral of a number below 2^32 - 1. *)
Definition arrayIndex (k : string) : option N :=
  match k with
  | EmptyString => None
  | String c rest =>
      if forallb isDigit (chars k)
         && (negb (c =? "0")%char || String.eqb rest "")
         && (String.length k <=? 10)%nat
         && (digitsValue k <? 4294967295)%N
      then Some (digitsValue k)
      else None
  end.

Definition isIndex (k : string) : bool :=
  match arrayIndex k with Some _ => true | None => false end.

Definition indexValue (k : string) : N :=
  match arrayIndex k with Some n => n | None => 0%N end.

(** [Object.keys(o)] : array indices in ascending order, then the other
    names in creation order. *)
Definition keys {V : Type} (o : Obj V) : list string :=
  let names := map fst o in
  (sortBy (fun a b => (indexValue a <=? indexValue b)%N) (filter isIndex names)
   ++ filter (fun k => negb (isIndex k)) names)%list.

End JsObject.

Import JsObject.

(** ** [src/changelog.js] *)

Module Changelog.

(** A commit as the forge delivers it:
    [{sha, commit: {message, author: {name, date}}}]. *)
Record Author : Type := { name : string; date : string }.
Record CommitData : Type := { message : string; author : Author }.
Record Commit : Type := { sha : string; commit : CommitData }.

Record Document : Type := { content : string; title : string }.

(** The type of one message: the [let type = 'other'; ... match[1]] of
    [groupCommitsByType]. *)
Definition commitType (message : string) : string :=
  match Regex.conventional message with
  | Some (w, _) => w
  | None => "other"
  end.

(** One turn of the [forEach] of [groupCommitsByType]. *)
Definition addCommit (types : Obj (list Commit)) (c : Commit)
  : Result (Obj (list Commit)) :=
  let type := commitType (message (commit c)) in
  let types :=
    match get types type with
    | Undefined => set types type []
    | _ => types
    end in
  match get types type with
  | Own group => Ok (set types type (group ++ [c])%list)
  | _ => Throw "types[type].push is not a function"
  end.

Definition groupCommitsByType (commits : list Commit)
  : Result (Obj (list Commit)) :=
  forEachM addCommit commits [].

Definition typeMap : Obj string :=
  [ ("feat", "Features");
    ("fix", "Bug Fixes");
    ("docs", "Documentation");
    ("style", "Style Improvements");
    ("refactor", "Code Refactoring");
    ("perf", "Performance Improvements");
    ("test", "Tests");
    ("build", "Build System");
    ("ci", "CI/CD");
    ("chore", "Chores");
    ("other", "Other Changes") ].

(** [type.charAt(0).toUpperCase() + type.slice(1)] *)
Definition capitalize (type : string) : string :=
  match type with
  | EmptyString => EmptyString
  | String c rest => String (toUpperChar c) rest
  end.

(** [typeMap[type] || ...]. A name of [Object.prototype] finds the built-in
    there, which the heading then prints; no key of a grouping is such a
    name. *)
Definition formatCommitType (type : string) : string :=
  match get typeMap type with
  | Own heading => heading
  | Builtin "__proto__" => "[object Object]"
  | Builtin "constructor" => "function Object() { [native code] }"
  | Builtin k => "function " ++ k ++ "() { [native code] }"
  | Undefined => capitalize type
  end.

(** [s.split('T')[0]] *)
Fixpoint beforeT (s : string) : string :=
  match s with
  | EmptyString => EmptyString
  | String c s' => if (c =? "T")%char then EmptyString else String c (beforeT s')
  end.

Section Renderers.

(** [new Date(s).toISOString()] : the runtime reads a timestamp and prints
    it in UTC as [YYYY-MM-DDTHH:mm:ss.sssZ]; it throws a [RangeError] on a
    date it cannot read. *)
Variable toISOString : string -> Result string.

Definition entryLine (c : Commit) : Result string :=
  let sha := take 7 (sha c) in
  let message := message (commit c) in
  let author := name (author (commit c)) in
  iso <- toISOString (date (Changelog.author (commit c))) ;;
  let date := beforeT iso in
  Ok ("- **" ++ sha ++ "** " ++ message ++ " (" ++ author ++ ", " ++ date ++ ")"
      ++ LF).

Definition ownGroup (o : Obj (list Commit)) (type : string) : list Commit :=
  match get o type with
  | Own group => group
  | _ => []
  end.

Definition generateInternalChangelog
  (repoName : string) (commits : list Commit) (dateRange : string)
  : Result string :=
  let changelog := "# Changelog: " ++ repoName ++ LF ++ LF in
  let changelog := changelog ++ "**Date Range:** " ++ dateRange ++ LF ++ LF in
  commitsByType <- groupCommitsByType commits ;;
  forEachM
    (fun changelog type =>
       let changelog :=
         changelog ++ "## " ++ formatCommitType type ++ LF ++ LF in
       changelog <-
         forEachM
           (fun changelog c => line <- entryLine c ;; Ok (changelog ++ line))
           (ownGroup commitsByType type) changelog ;;
       Ok (changelog ++ LF))
    (keys commitsByType) changelog.

End Renderers.

Definition headingFeatures : string := "## âœ¨ New Features".
Definition headingBreaking : string := "## âš ï¸ Breaking Changes".
Definition headingFixes : string := "## ðŸ› Bug Fixes".
Definition headingPerformance : string := "## âš¡ Performance Improvements".

(** [message.toLowerCase().startsWith(kw)] *)
Definition startsWithCI (kw : string) (c : Commit) : bool :=
  startsWith (toLowerCase (message (commit c))) kw.

(** One [if (bucket.length > 0) { ... }] block of the external layout. *)
Definition addSection (heading kw : string) (bucket : list Commit)
  (changelog : string) : string :=
  if (0 <? List.length bucket)%nat then
    let changelog := changelog ++ heading ++ LF ++ LF in
    let changelog :=
      fold_left
        (fun changelog c =>
           let message := Regex.stripPrefix kw (message (commit c)) in
           changelog ++ "- " ++ message ++ LF)
        bucket changelog in
    changelog ++ LF
  else changelog.

Definition generateExternalChangelog
  (repoName : string) (commits : list Commit) (dateRange : string) : string :=
  let changelog := "# " ++ repoName ++ " - Changelog" ++ LF ++ LF in
  let changelog := changelog ++ "**" ++ dateRange ++ "**" ++ LF ++ LF in
  let userRelevantCommits :=
    filter
      (fun c =>
         let message := toLowerCase (message (commit c)) in
         startsWith message "feat" || startsWith message "fix"
         || startsWith message "perf" || startsWith message "breaking")
      commits in
  let features := filter (startsWithCI "feat") userRelevantCommits in
  let fixes := filter (startsWithCI "fix") userRelevantCommits in
  let performance := filter (startsWithCI "perf") userRelevantCommits in
  let breaking := filter (startsWithCI "breaking") userRelevantCommits in
  let changelog := addSection headingFeatures "feat" features changelog in
  let changelog := addSection headingBreaking "breaking" breaking changelog in
  let changelog := addSection headingFixes "fix" fixes changelog in
  let changelog := addSection headingPerformance "perf" performance changelog in
  changelog.

(** [repoUrl.split('/').pop()] *)
Fixpoint lastSegmentFrom (acc s : string) : string :=
  match s with
  | EmptyString => acc
  | String c s' =>
      if (c =? "/")%char then lastSegmentFrom EmptyString s'
      else lastSegmentFrom (acc ++ String c EmptyString) s'
  end.

Definition lastSegment (s : string) : string := lastSegmentFrom EmptyString s.

(** [s.replace(pat, '')] with a string pattern: the first occurrence goes. *)
Fixpoint removeFirst (pat s : string) : string :=
  if startsWith s pat then drop (String.length pat) s
  else
    match s with
    | EmptyString => EmptyString
    | String c s' => String c (removeFirst pat s')
    end.

(** What one run meets outside the program: the forge, the clock and the
    language-model service. *)
Record World : Type := {
  (** [fetchCommits(repoUrl, days)] : the commits of the window, newest
      first, or the error the request ends in. *)
  fetchCommits : string -> Z -> Result (list Commit);
  (** [`${formatDate(startDate)} - ${formatDate(endDate)}`] for a window of
      so many days before now. *)
  dateRangeOf : Z -> Result string;
  (** [aiSummarizer.enhanceChangelog(commits, format, repoName, dateRange)] :
      a document, [null], or an exception. *)
  enhanceChangelog :
    list Commit -> string -> string -> string -> Result (option Document);
  toISOString : string -> Result string
}.

Definition noCommits : Document :=
  {| content := "No commits found for the specified period.";
     title := "No Changes" |}.

Definition generateChangelog
  (w : World) (repoUrl : string) (days : Z) (format : string) (useAI : bool)
  : Document :=
  let run : Result Document :=
    commits <- fetchCommits w repoUrl days ;;
    if (List.length commits =? 0)%nat then Ok noCommits
    else
      let repoName := removeFirst ".git" (lastSegment repoUrl) in
      dateRange <- dateRangeOf w days ;;
      let standard : Result Document :=
        changelog <-
          (if String.eqb format "external"
           then Ok (generateExternalChangelog repoName commits dateRange)
           else generateInternalChangelog (toISOString w) repoName commits
                  dateRange) ;;
        Ok {| content := changelog; title := repoName ++ " Changelog" |} in
      if useAI then
        match enhanceChangelog w commits format repoName dateRange with
        | Ok (Some aiResult) =>
            Ok {| content := content aiResult;
                  title := if String.eqb (title aiResult) EmptyString
                           then repoName ++ " Changelog"
                           else title aiResult |}
        | Ok None => standard
        | Throw _ => standard
        end
      else standard in
  match run with
  | Ok document => document
  | Throw msg =>
      {| content := "Error generating changelog: " ++ msg; title := "Error" |}
  end.

End Changelog.

(** ** [src/db/setup.js] : the backing file *)

Module Setup.

(** A value as [JSON.parse] builds it. A number keeps its literal. An array
    can carry named properties next to its items once the program assigns
    one. *)
#[local] Set Warnings "-register-all".

Inductive Value : Type :=
| VNull
| VBool (b : bool)
| VNumber (literal : string)
| VString (s : string)
| VArray (items : list Value) (named : list (string * Value))
| VObject (members : list (string * Value)).

(** The backing file as the read path meets it. *)
Inductive File : Type :=
| Missing                (* [fs.existsSync] answers false *)
| Unreadable             (* [fs.readFileSync] throws *)
| Garbage                (* [JSON.parse] throws a [SyntaxError] *)
| Json (parsed : Value). (* [JSON.parse] returns *)

Definition emptyArray : Value := VArray [] [].

Definition fresh : Value :=
  VObject [("repositories", emptyArray); ("history", emptyArray)].

(** [v.k] for a name [k] that no built-in prototype defines, such as
    [repositories] and [history]; [None] is [undefined]. *)
Definition getProp (v : Value) (k : string) : Result (option Value) :=
  match v with
  | VNull => Throw ("Cannot read properties of null (reading '" ++ k ++ "')")
  | VBool _ | VNumber _ | VString _ => Ok None
  | VArray _ named => Ok (getOwn named k)
  | VObject members => Ok (getOwn members k)
  end.

(** [v.k = x] outside strict mode: assigning to a property of a number, a
    string or a boolean does nothing. *)
Definition setProp (v : Value) (k : string) (x : Value) : Value :=
  match v with
  | VArray items named => VArray items (set named k x)
  | VObject members => VObject (set members k x)
  | _ => v
  end.

Definition isArray (v : option Value) : bool :=
  match v with
  | Some (VArray _ _) => true
  | _ => false
  end.

(** A numeral is zero when its mantissa has no digit other than 0. *)
Fixpoint zeroMantissa (s : string) : bool :=
  match s with
  | EmptyString => true
  | String c s' =>
      if (c =? "e")%char || (c =? "E")%char then true
      else if between 49 57 c then false
      else zeroMantissa s'
  end.

Definition truthy (v : option Value) : bool :=
  match v with
  | None | Some VNull => false
  | Some (VBool b) => b
  | Some (VNumber literal) => negb (zeroMantissa literal)
  | Some (VString s) => negb (String.eqb s EmptyString)
  | Some (VArray _ _) | Some (VObject _) => true
  end.

(** [if (!parsedData.k || !Array.isArray(parsedData.k)) parsedData.k = []] *)
Definition ensureArray (k : string) (parsedData : Value) : Result Value :=
  field <- getProp parsedData k ;;
  if negb (truthy field) || negb (isArray field)
  then Ok (setProp parsedData k emptyArray)
  else Ok parsedData.

Definition readDB (file : File) : Value :=
  match file with
  | Missing => fresh
  | Unreadable | Garbage => fresh
  | Json parsedData =>
      match
        parsedData <- ensureArray "repositories" parsedData ;;
        ensureArray "history" parsedData
      with
      | Ok parsedData => parsedData
      | Throw _ => fresh
      end
  end.

(** What becomes of [fs.writeFileSync] when the initialization pass calls
    it. *)
Inductive Write : Type :=
| Fails        (* it throws, or [fs.mkdirSync] did: the exception is caught *)
| Lands        (* the file holds the fresh structure and can be read *)
| LandsUnread. (* the file holds it, and [fs.readFileSync] throws as before *)

(** The initialization pass: a file that is absent, unreadable, not JSON or
    without both arrays is written anew with a fresh structure. A write
    that fails leaves the file as it was. *)
Definition setup (write : Write) (file : File) : File :=
  let needsInitialization :=
    match file with
    | Missing | Unreadable | Garbage => true
    | Json parsedData =>
        match
          repositories <- getProp parsedData "repositories" ;;
          history <- getProp parsedData "history" ;;
          Ok (negb (truthy repositories) || negb (isArray repositories)
              || negb (truthy history) || negb (isArray history))
        with
        | Ok b => b
        | Throw _ => true
        end
    end in
  if needsInitialization then
    match write with
    | Fails => file
    | Lands => Json fresh
    | LandsUnread => Unreadable
    end
  else file.

End Setup.

(** ** [src/db/repositories.js], [src/db/history.js], [src/db/commits.js]

    The store as the specification's data model has it: repository records
    and history entries with their fields. A timestamp is the number of
    milliseconds that [new Date(s)] reads from the ISO string
    [new Date().toISOString()] stored in the file. Every operation reads the
    whole store and writes the whole store back; the write is taken to
    reach the file. *)

Module Store.

Record RepositoryRecord : Type := {
  url : string;
  name : string;
  lastUsed : Z
}.

Record HistoryEntry : Type := {
  repoUrl : string;
  generatedAt : Z;
  startDate : string;
  endDate : string;
  lastCommitHash : option string
}.

Record DB : Type := {
  repositories : list RepositoryRecord;
  history : list HistoryEntry
}.

Definition empty : DB := {| repositories := []; history := [] |}.

Definition byLastUsed (a b : RepositoryRecord) : Z :=
  (lastUsed b - lastUsed a)%Z.

Definition byGeneratedAt (a b : HistoryEntry) : Z :=
  (generatedAt b - generatedAt a)%Z.

Definition touch (now : Z) (r : RepositoryRecord) : RepositoryRecord :=
  {| url := url r; name := name r; lastUsed := now |}.

(** [saveRepository(url, name)] when the clock reads [now]. *)
Definition saveRepository (now : Z) (url' name' : string) (db : DB) : DB :=
  let existingRepoIndex :=
    findIndex (fun repo => String.eqb (url repo) url') (repositories db) in
  let repos :=
    match existingRepoIndex with
    | Some i => updateAt i (touch now) (repositories db)
    | None =>
        (repositories db
         ++ [{| url := url'; name := name'; lastUsed := now |}])%list
    end in
  {| repositories := sortWith byLastUsed repos; history := history db |}.

Definition getRecentRepositories (limit : nat) (db : DB)
  : list RepositoryRecord :=
  firstn limit (sortWith byLastUsed (repositories db)).

Definition getRepository (url' : string) (db : DB) : option RepositoryRecord :=
  find (fun repo => String.eqb (url repo) url') (repositories db).

(** [lastCommitHash || null] *)
Definition orNull (h : option string) : option string :=
  match h with
  | Some EmptyString => None
  | _ => h
  end.

(** [saveChangelogGeneration(...)] : the clock reads [t1] inside
    [saveRepository] and [t2] for [generatedAt]. *)
Definition saveChangelogGeneration
  (t1 t2 : Z) (repoUrl' repoName startDate' endDate' : string)
  (lastCommitHash' : option string) (db : DB) : DB :=
  let db := saveRepository t1 repoUrl' repoName db in
  let entries :=
    (history db
     ++ [{| repoUrl := repoUrl'; generatedAt := t2; startDate := startDate';
            endDate := endDate'; lastCommitHash := orNull lastCommitHash' |}])%list
  in
  {| repositories := repositories db;
     history := sortWith byGeneratedAt entries |}.

Record LastRun : Type := {
  days : Z;
  lastDate : string;
  lastHash : option string
}.

Definition msPerDay : Z := 1000 * 60 * 60 * 24.

(** [Math.ceil(a / b)] for a positive [b]. *)
Definition ceilDiv (a b : Z) : Z := (- ((- a) / b))%Z.

(** [getDaysSinceLastChangelog(repoUrl)] when the clock reads [now]. *)
Definition getDaysSinceLastChangelog (now : Z) (repoUrl' : string) (db : DB)
  : option LastRun :=
  match
    sortWith byGeneratedAt
      (filter (fun entry => String.eqb (repoUrl entry) repoUrl') (history db))
  with
  | [] => None
  | lastChangelog :: _ =>
      let daysSince := ceilDiv (now - generatedAt lastChangelog) msPerDay in
      Some {| days := daysSince;
              lastDate := endDate lastChangelog;
              lastHash := lastCommitHash lastChangelog |}
  end.

Definition getChangelogHistory (repoUrl' : string) (limit : nat) (db : DB)
  : list HistoryEntry :=
  firstn limit
    (sortWith byGeneratedAt
       (filter (fun entry => String.eqb (repoUrl entry) repoUrl') (history db))).

Record NewCommits : Type := {
  newCommits : option nat;
  newestHash : option string;
  message : string
}.

Definition decimal (n : nat) : string :=
  DecimalString.NilEmpty.string_of_uint (Nat.to_uint n).

Definition noPreviousHash : string := "No previous changelog commit hash found".
Definition notInRecentHistory : string :=
  "Previous commit not found in recent history".

(** [getNewCommitsSinceLastChangelog(repoUrl, githubToken)] : [response] is
    what the request for the repository's commit list ends in. *)
Definition getNewCommitsSinceLastChangelog
  (now : Z) (repoUrl' : string) (db : DB)
  (response : Result (list Changelog.Commit)) : NewCommits :=
  let unknown :=
    {| newCommits := None; newestHash := None; message := noPreviousHash |} in
  match getDaysSinceLastChangelog now repoUrl' db with
  | None => unknown
  | Some lastChangelog =>
      match lastHash lastChangelog with
      | None | Some EmptyString => unknown
      | Some hash =>
          match response with
          | Throw msg =>
              {| newCommits := None; newestHash := None;
                 message := "Error: " ++ msg |}
          | Ok [] =>
              {| newCommits := Some 0%nat; newestHash := Some hash;
                 message := "No commits found" |}
          | Ok ((first :: _) as commits) =>
              match
                findIndex (fun c => startsWith (Changelog.sha c) hash) commits
              with
              | None =>
                  {| newCommits := Some (List.length commits);
                     newestHash := Some (Changelog.sha first);
                     message := notInRecentHistory |}
              | Some lastCommitIndex =>
                  let newCommitsCount := lastCommitIndex in
                  {| newCommits := Some newCommitsCount;
                     newestHash := Some (Changelog.sha first);
                     message := "Found " ++ decimal newCommitsCount
                                ++ " new commits since last changelog" |}
              end
          end
      end
  end.

End Store.

(** ** Repository URLs

    [fetchCommits] of [src/changelog.js] and
    [getNewCommitsSinceLastChangelog] of [src/db/commits.js] build the
    address of the forge's commit list from the repository URL in the same
    way; [getRepoNameFromUrl] of [index.js] is the expression that
    [generateChangelog] uses for the repository name. *)

Module RepoUrl.

(** [s.split(sep)] for a separator of one character. *)
Fixpoint split (sep : ascii) (s : string) : list string :=
  match s with
  | EmptyString => [EmptyString]
  | String c s' =>
      if (c =? sep)%char then EmptyString :: split sep s'
      else
        match split sep s' with
        | [] => [String c EmptyString]
        | part :: parts => String c part :: parts
        end
  end.

(** [s.replace(/suffix$/, '')] for a literal suffix. *)
Fixpoint dropSuffix (suffix s : string) : string :=
  if String.eqb s suffix then EmptyString
  else
    match s with
    | EmptyString => EmptyString
    | String c s' => String c (dropSuffix suffix s')
    end.

(** [`${parts[parts.length - k]}`] : an index before the start of the array
    reads [undefined], which the template prints. *)
Definition fromEnd (k : nat) (parts : list string) : string :=
  if (k <=? List.length parts)%nat
  then nth (List.length parts - k) parts "undefined"
  else "undefined".

Definition apiUrl (repoUrl : string) : string :=
  let urlParts := split "/" (dropSuffix ".git" repoUrl) in
  let repoOwner := fromEnd 2 urlParts in
  let repoName := fromEnd 1 urlParts in
  "https://api.github.com/repos/" ++ repoOwner ++ "/" ++ repoName ++ "/commits".

(** [url.split('/').pop().replace('.git', '')] *)
Definition getRepoNameFromUrl (url : string) : string :=
  Changelog.removeFirst ".git" (Changelog.lastSegment url).

End RepoUrl.

(** ** [src/ai-summarizer.js] : the title of a generated document *)

Module Summarizer.

(** [s.trimEnd()] : the text up to the point from where only white space
    follows. *)
Fixpoint trimEnd (s : string) : string :=
  match s with
  | EmptyString => EmptyString
  | String c s' =>
      if String.eqb (skipSpace s) EmptyString then EmptyString
      else String c (trimEnd s')
  end.

(** [s.trim()] *)
Definition trim (s : string) : string := trimEnd (skipSpace s).

(** The loop of [enhanceChangelog] over the lines of the response: the
    first line that starts with [# ] gives the title. *)
Definition extractTitle (content : string) : string :=
  let lines := RepoUrl.split "010" content in
  match find (fun line => startsWith line "# ") lines with
  | Some line =>
      let extractedTitle := trim (drop 2 line) in
      RepoUrl.dropSuffix " - Changelog" extractedTitle
  | None => "Changelog"
  end.

End Summarizer.

(** ** [index.js] : what [run] reads from and writes to the store *)

Module Cli.

(** The check of the repository history before the questions:
    [suggestedTimeframe] and [newCommitsInfo]. The clock reads [now] in
    [run] and [now'] inside [getNewCommitsSinceLastChangelog]. *)
Definition checkHistory (now now' : Z) (repoUrl : string)
  (response : Result (list Changelog.Commit)) (db : Store.DB)
  : Z * option Store.NewCommits :=
  match Store.getDaysSinceLastChangelog now repoUrl db with
  | Some lastChangelogInfo =>
      (Store.days lastChangelogInfo,
       Some (Store.getNewCommitsSinceLastChangelog now' repoUrl db response))
  | None => (1%Z, None)
  end.

(** [newCommitsInfo && newCommitsInfo.lastCommitHash
     ? newCommitsInfo.lastCommitHash : null] *)
Definition hashToRecord (newCommitsInfo : option Store.NewCommits)
  : option string :=
  match newCommitsInfo with
  | Some info =>
      match Store.newestHash info with
      | Some (String _ _ as hash) => Some hash
      | _ => None
      end
  | None => None
  end.

(** One pass of [run] as the store sees it. *)
Record Pass : Type := {
  repoUrl : string;                              (* the repository chosen *)
  now : Z;                                       (* clock, history check *)
  now' : Z;                                      (* clock, inside the helper *)
  response : Result (list Changelog.Commit);     (* the forge's commit list *)
  completed : bool;     (* nothing threw between the preview and the save *)
  startDate : string;
  endDate : string;
  t1 : Z;                                        (* clock, [saveRepository] *)
  t2 : Z                                         (* clock, [generatedAt] *)
}.

Definition run (p : Pass) (db : Store.DB) : Store.DB :=
  let newCommitsInfo :=
    snd (checkHistory (now p) (now' p) (repoUrl p) (response p) db) in
  if completed p then
    let repoName := RepoUrl.getRepoNameFromUrl (repoUrl p) in
    let lastCommitHash := hashToRecord newCommitsInfo in
    Store.saveChangelogGeneration (t1 p) (t2 p) (repoUrl p) repoName
      (startDate p) (endDate p) lastCommitHash db
  else db.

End Cli.

(** * Properties *)

(** ** Vocabulary of the statements *)

Module Grammar.

(** [r] does not go on with a character of the class [p]. *)
Definition stopsAt (p : ascii -> bool) (r : string) : Prop :=
  match r with
  | EmptyString => True
  | String c _ => p c = false
  end.

Definition allOf (p : ascii -> bool) (s : string) : Prop :=
  forallb p (chars s) = true.

(** [\w+] *)
Definition Word (w : string) : Prop := w <> "" /\ allOf isWordChar w.

Definition notClose (c : ascii) : bool := negb (c =? ")")%char.

(** [(\([^)]+\))?] *)
Inductive Scope : string -> Prop :=
| NoScope : Scope ""
| InParens (body : string) :
    body <> "" -> allOf notClose body -> Scope ("(" ++ body ++ ")").

(** The keyword [kw] in any mix of cases. *)
Definition Keyword (kw k : string) : Prop := lowerAscii k = kw.

(** One white-space character. *)
Definition Space (w : string) : Prop := leadingSpace w = Some "".

(** [\s*] : a run of white-space characters. *)
Inductive Spaces : string -> Prop :=
| NoSpace : Spaces ""
| MoreSpace (w ws : string) : Space w -> Spaces ws -> Spaces (w ++ ws).

(** [r] does not go on with white space. *)
Definition startsPlain (r : string) : Prop := leadingSpace r = None.

(** The type as the specification words it: capture group 1 in lower
    case. *)
Definition lowerCasedType (message : string) : string :=
  match Regex.conventional message with
  | Some (w, _) => toLowerCase w
  | None => "other"
  end.

End Grammar.

Import Grammar.

(** The external layout as the specification describes it: a header, then
    one section for each bucket that is not empty. *)
Module Layout.

Import Changelog.

Definition bucket (kw : string) (commits : list Commit) : list Commit :=
  filter (startsWithCI kw) commits.

Definition relevant (c : Commit) : bool :=
  startsWithCI "feat" c || startsWithCI "fix" c
  || startsWithCI "perf" c || startsWithCI "breaking" c.

Fixpoint unlines (ls : list string) : string :=
  match ls with
  | [] => ""
  | l :: ls' => l ++ LF ++ unlines ls'
  end.

Definition externalEntry (kw : string) (c : Commit) : string :=
  "- " ++ Regex.stripPrefix kw (message (commit c)).

Definition externalSection (heading kw : string) (b : list Commit) : string :=
  match b with
  | [] => ""
  | _ :: _ => heading ++ LF ++ LF ++ unlines (map (externalEntry kw) b) ++ LF
  end.

Definition externalHeader (repoName dateRange : string) : string :=
  "# " ++ repoName ++ " - Changelog" ++ LF ++ LF
  ++ "**" ++ dateRange ++ "**" ++ LF ++ LF.

Definition externalLayout
  (repoName : string) (commits : list Commit) (dateRange : string) : string :=
  externalHeader repoName dateRange
  ++ externalSection headingFeatures "feat" (bucket "feat" commits)
  ++ externalSection headingBreaking "breaking" (bucket "breaking" commits)
  ++ externalSection headingFixes "fix" (bucket "fix" commits)
  ++ externalSection headingPerformance "perf" (bucket "perf" commits).


Definition mkCommit (sha' message' author' date' : string) : Commit :=
  {| sha := sha';
     commit := {| message := message';
                  author := {| name := author'; date := date' |} |} |}.


(** A commit, and a later one whose message names the first by its short
    hash and its own author by name. *)
Definition addLogin : Commit :=
  mkCommit "abc1234def5678901234567890abcdef12345678" "feat: add login"
    "Ann" "2024-01-02T10:00:00Z".

Definition revertLogin : Commit :=
  mkCommit "fff0000111222333444555666777888999aaabbb"
    "fix: Bob reverts abc1234" "Bob" "2024-01-03T10:00:00Z".

(** A later commit of the same type, written with a capital. *)
Definition rememberMe : Commit :=
  mkCommit "7654321fedcba09876543210fedcba0987654321" "Feat: remember me"
    "Cy" "2024-01-04T10:00:00Z".

(** Messages with a conventional prefix whose word is not a keyword of the
    external layout, yet starts with one. *)
Definition fixesCrash : Commit :=
  mkCommit "2222222333333344444445555555666666677777" "fixes: crash"
    "Ann" "2024-01-05T10:00:00Z".

Definition featureAddX : Commit :=
  mkCommit "8888888999999900000001111111222222233333" "feature(ui): add x"
    "Bob" "2024-01-06T10:00:00Z".

(** U+00A0, the no-break space, and U+212A, the Kelvin sign. *)
Definition nbsp : string := String "194" (String "160" "").

Definition kelvin : string := String "226" (String "132" (String "170" "")).

(** The two commits with hash, author and date replaced. *)
Definition addLogin' : Commit :=
  mkCommit "0000000000000000000000000000000000000000" "feat: add login"
    "Zed" "1999-12-31T23:59:59Z".


(** The internal layout as the specification describes it: a header, then
    one section for each type, one line for each commit of the type. *)
Definition internalEntry (toISOString : string -> Result string) (c : Commit)
  : string :=
  "- **" ++ take 7 (sha c) ++ "** " ++ message (commit c)
  ++ " (" ++ name (author (commit c)) ++ ", "
  ++ match toISOString (date (author (commit c))) with
     | Ok iso => beforeT iso
     | Throw _ => ""
     end
  ++ ")".

Definition internalSection (toISOString : string -> Result string)
  (section : string * list Commit) : string :=
  "## " ++ formatCommitType (fst section) ++ LF ++ LF
  ++ unlines (map (internalEntry toISOString) (snd section)) ++ LF.

Definition internalHeader (repoName dateRange : string) : string :=
  "# Changelog: " ++ repoName ++ LF ++ LF
  ++ "**Date Range:** " ++ dateRange ++ LF ++ LF.

Fixpoint joined (ls : list string) : string :=
  match ls with
  | [] => ""
  | s :: ls' => s ++ joined ls'
  end.

(** The leading word of the message is no property of [Object.prototype]. *)
Definition plainType (c : Commit) : Prop :=
  inherited (commitType (message (commit c))) = false.

Definition readableDate (toISOString : string -> Result string) (c : Commit)
  : Prop :=
  exists iso, toISOString (date (author (commit c))) = Ok iso.

(** A grouping of [commits]: distinct types, every commit in one group, and
    in the group of its own type. *)
Definition groups (sections : list (string * list Commit))
  (commits : list Commit) : Prop :=
  NoDup (map fst sections)
  /\ Permutation (concat (map snd sections)) commits
  /\ Forall
       (fun section =>
          Forall (fun c => commitType (message (commit c)) = fst section)
            (snd section))
       sections.

(** A commit whose leading word is a property of [Object.prototype]. *)
Definition toStringFix : Commit :=
  mkCommit "0a1b2c3d4e5f60718293a4b5c6d7e8f901234567" "toString: handle null"
    "Ann" "2024-01-02T10:00:00Z".

(** A run that fetches [commits], has no language-model key and reads the
    forge's timestamps [YYYY-MM-DDTHH:MM:SSZ]. *)
Definition forgeTimestamp (s : string) : Result string :=
  if (String.length s =? 20)%nat then Ok (take 19 s ++ ".000Z")
  else Throw "Invalid time value".

Definition offline (response : Result (list Commit)) : World :=
  {| fetchCommits := fun _ _ => response;
     dateRangeOf := fun _ => Ok "2024-01-01 - 2024-01-08";
     enhanceChangelog := fun _ _ _ _ => Ok None;
     toISOString := forgeTimestamp |}.

(** What the specification asks of the read path: both top-level fields
    are arrays. *)
Definition bothArrays (v : Setup.Value) : Prop :=
  exists repositories history,
    Setup.getProp v "repositories" = Ok repositories
    /\ Setup.isArray repositories = true
    /\ Setup.getProp v "history" = Ok history
    /\ Setup.isArray history = true.

End Layout.

Import Layout.

(** Histories of calls on the store, and what the specification says of
    the repository table after them. *)
Module Calls.

Import Store.

Inductive Call : Type :=
| SaveRepository (now : Z) (url' name' : string)
| RecordGeneration (t1 t2 : Z) (repoUrl' repoName startDate' endDate' : string)
    (lastCommitHash' : option string).

Definition perform (db : DB) (c : Call) : DB :=
  match c with
  | SaveRepository now u n => saveRepository now u n db
  | RecordGeneration t1 t2 u n s e h => saveChangelogGeneration t1 t2 u n s e h db
  end.

(** The store after the calls, in order, on the empty store. *)
Definition run (calls : list Call) : DB := fold_left perform calls empty.

Definition callUrl (c : Call) : string :=
  match c with
  | SaveRepository _ u _ => u
  | RecordGeneration _ _ u _ _ _ _ => u
  end.

(** The time a call stamps on the repository record. *)
Definition callTime (c : Call) : Z :=
  match c with
  | SaveRepository now _ _ => now
  | RecordGeneration t1 _ _ _ _ _ _ => t1
  end.

(** The time of the most recent call for [u], if there is one. *)
Fixpoint lastCallTime (u : string) (calls : list Call) : option Z :=
  match calls with
  | [] => None
  | c :: rest =>
      match lastCallTime u rest with
      | Some t => Some t
      | None => if String.eqb (callUrl c) u then Some (callTime c) else None
      end
  end.

Definition newestFirst (repos : list RepositoryRecord) : Prop :=
  StronglySorted (fun a b => (lastUsed b <= lastUsed a)%Z) repos.

(** What holds of the table before it is sorted, and is kept by every
    reordering of it. *)
Definition tableOf (calls : list Call) (repos : list RepositoryRecord)
  : Prop :=
  NoDup (map url repos)
  /\ (forall u, In u (map url repos) <-> In u (map callUrl calls))
  /\ Forall (fun r => lastCallTime (url r) calls = Some (lastUsed r))
       repos.

(** A store with two repositories and one recorded run. *)
Definition widgets : RepositoryRecord :=
  {| url := "https://github.com/acme/widgets"; name := "widgets";
     lastUsed := 1000 |}.

Definition gadgets : RepositoryRecord :=
  {| url := "https://github.com/acme/gadgets"; name := "gadgets";
     lastUsed := 2000 |}.

Definition sample : DB :=
  {| repositories := [gadgets; widgets];
     history :=
       [ {| repoUrl := "https://github.com/acme/widgets"; generatedAt := 1000;
            startDate := "2024-01-01"; endDate := "2024-01-08";
            lastCommitHash := Some "abc1234" |} ] |}.

End Calls.

Import Calls.

(** Further vocabulary: groupings in the order the code builds them, calls
    and passes on the store. *)
Module Order.

Import Changelog.

Definition typeOf (c : Commit) : string := commitType (message (commit c)).

(** The distinct elements of a list in the order of their first
    occurrence. *)
Definition firstSeen (ks : list string) : list string :=
  fold_left
    (fun seen k => if existsb (String.eqb k) seen then seen else (seen ++ [k])%list)
    ks [].

(** The commits of one type, in input order. *)
Definition groupOf (commits : list Commit) (type : string) : list Commit :=
  filter (fun c => String.eqb (typeOf c) type) commits.

(** One group for each type, types in the order of their first commit. *)
Definition grouping (commits : list Commit) : list (string * list Commit) :=
  map (fun type => (type, groupOf commits type))
    (firstSeen (map typeOf commits)).

(** The order of [Object.keys] on the types: those that read as array
    indices first, by value, then the others as first seen. *)
Definition sectionOrder (commits : list Commit) : list string :=
  let types := firstSeen (map typeOf commits) in
  (sortBy (fun a b => (indexValue a <=? indexValue b)%N) (filter isIndex types)
   ++ filter (fun k => negb (isIndex k)) types)%list.

Definition noSlash (s : string) : Prop :=
  allOf (fun c => negb (c =? "/")%char) s.

Definition noLF (s : string) : Prop :=
  allOf (fun c => negb (c =? "010")%char) s.

Definition callName (c : Call) : string :=
  match c with
  | SaveRepository _ _ n => n
  | RecordGeneration _ _ _ n _ _ _ => n
  end.

(** The name that the first call for [u] brought. *)
Fixpoint firstCallName (u : string) (calls : list Call) : option string :=
  match calls with
  | [] => None
  | c :: rest =>
      if String.eqb (callUrl c) u then Some (callName c)
      else firstCallName u rest
  end.

(** The history entries that the calls append. *)
Definition recorded (calls : list Call) : list Store.HistoryEntry :=
  flat_map
    (fun c =>
       match c with
       | SaveRepository _ _ _ => []
       | RecordGeneration _ t2 u _ s e h =>
           [{| Store.repoUrl := u; Store.generatedAt := t2;
               Store.startDate := s; Store.endDate := e;
               Store.lastCommitHash := Store.orNull h |}]
       end)
    calls.

Definition newestEntryFirst (entries : list Store.HistoryEntry) : Prop :=
  StronglySorted
    (fun a b => (Store.generatedAt b <= Store.generatedAt a)%Z) entries.

(** The store after the passes of [run], in order, on the empty store. *)
Definition afterPasses (passes : list Cli.Pass) : Store.DB :=
  fold_left (fun db p => Cli.run p db) passes Store.empty.

(** A fetched page and a pass that goes through, for the examples. *)
Definition page : list Commit := [revertLogin; addLogin; addLogin'].

Definition pass (u : string) (t : Z) : Cli.Pass :=
  {| Cli.repoUrl := u; Cli.now := t; Cli.now' := t; Cli.response := Ok page;
     Cli.completed := true; Cli.startDate := "2024-01-01";
     Cli.endDate := "2024-01-08"; Cli.t1 := t; Cli.t2 := t |}.

End Order.

Import Order.

(** ** Strings *)

Lemma append_assoc (s1 s2 s3 : string) : (s1 ++ s2) ++ s3 = s1 ++ (s2 ++ s3).
Proof.
  induction s1 as [|c s1 IH]; simpl; [reflexivity | now rewrite IH].
Qed.

Lemma append_empty_r (s : string) : s ++ "" = s.
Proof.
  induction s as [|c s IH]; simpl; [reflexivity | now rewrite IH].
Qed.

Lemma chars_append (s1 s2 : string) :
  chars (s1 ++ s2) = (chars s1 ++ chars s2)%list.
Proof.
  induction s1 as [|c s1 IH]; simpl; [reflexivity | now rewrite IH].
Qed.

Lemma span_append (p : ascii -> bool) (s : string) :
  fst (span p s) ++ snd (span p s) = s.
Proof.
  induction s as [|c s IH]; simpl; [reflexivity |].
  destruct (p c); [| reflexivity].
  destruct (span p s) as [w r]; simpl in *. now rewrite IH.
Qed.

Lemma span_all (p : ascii -> bool) (s : string) : allOf p (fst (span p s)).
Proof.
  unfold allOf. induction s as [|c s IH]; simpl; [reflexivity |].
  destruct (p c) eqn:Hc; [| reflexivity].
  destruct (span p s) as [w r]; simpl in *. now rewrite Hc.
Qed.

Lemma span_stops (p : ascii -> bool) (s : string) : stopsAt p (snd (span p s)).
Proof.
  induction s as [|c s IH]; simpl; [exact I |].
  destruct (p c) eqn:Hc; [| exact Hc].
  destruct (span p s) as [w r]; exact IH.
Qed.

(** A greedy class has one split: the whole run. *)
Lemma span_unique (p : ascii -> bool) (w r : string) :
  allOf p w -> stopsAt p r -> span p (w ++ r) = (w, r).
Proof.
  unfold allOf. induction w as [|c w IH]; simpl; intros Hw Hr.
  - destruct r as [|c r]; simpl in *; [reflexivity | now rewrite Hr].
  - apply andb_true_iff in Hw as [Hc Hw]. rewrite Hc, (IH Hw Hr). reflexivity.
Qed.

(** White space. A character of two or three bytes ends in a byte that is
    no ASCII character. *)
Lemma space2_high (c1 c2 : ascii) :
  space2 c1 c2 = true -> (128 <= code c2)%N.
Proof.
  unfold space2. rewrite andb_true_iff, !N.eqb_eq. lia.
Qed.

Lemma space3_high (c1 c2 c3 : ascii) :
  space3 c1 c2 c3 = true -> (128 <= code c2)%N /\ (128 <= code c3)%N.
Proof.
  unfold space3.
  rewrite !orb_true_iff, !andb_true_iff, !orb_true_iff, !andb_true_iff,
    !N.eqb_eq, !N.leb_le.
  lia.
Qed.

Lemma skipSpace_unfold (s : string) :
  skipSpace s
  = match leadingSpace s with
    | Some t => skipSpace t
    | None => s
    end.
Proof.
  destruct s as [|c1 s1]; [reflexivity |]. cbn [skipSpace leadingSpace].
  destruct (space1 c1); [reflexivity |].
  destruct s1 as [|c2 s2]; [reflexivity |].
  destruct (space2 c1 c2); [reflexivity |].
  destruct s2 as [|c3 s3]; [reflexivity |].
  now destruct (space3 c1 c2 c3).
Qed.

Lemma leadingSpace_skip (s t : string) :
  leadingSpace s = Some t -> skipSpace s = skipSpace t.
Proof. intros H. now rewrite skipSpace_unfold, H. Qed.

Lemma skipSpace_plain (s : string) :
  startsPlain s -> skipSpace s = s.
Proof. unfold startsPlain. intros H. now rewrite skipSpace_unfold, H. Qed.

Lemma leadingSpace_shorter (s t : string) :
  leadingSpace s = Some t -> (String.length t < String.length s)%nat.
Proof.
  destruct s as [|c1 s1]; [discriminate |]. cbn [leadingSpace String.length].
  destruct (space1 c1); [intros [= <-]; lia |].
  destruct s1 as [|c2 s2]; [discriminate |]. cbn [String.length].
  destruct (space2 c1 c2); [intros [= <-]; lia |].
  destruct s2 as [|c3 s3]; [discriminate |]. cbn [String.length].
  destruct (space3 c1 c2 c3); [intros [= <-]; lia | discriminate].
Qed.

Lemma leadingSpace_append (w s : string) :
  Space w -> leadingSpace (w ++ s) = Some s.
Proof.
  unfold Space.
  destruct w as [|c1 w1]; [discriminate |]. cbn [leadingSpace append].
  destruct (space1 c1); [now intros [= ->] |].
  destruct w1 as [|c2 w2]; [discriminate |]. cbn [append].
  destruct (space2 c1 c2); [now intros [= ->] |].
  destruct w2 as [|c3 w3]; [discriminate |]. cbn [append].
  destruct (space3 c1 c2 c3); [now intros [= ->] | discriminate].
Qed.

(** A greedy [\s*] takes the whole run of white space. *)
Lemma skipSpace_spaces (ws rest : string) :
  Spaces ws -> startsPlain rest -> skipSpace (ws ++ rest) = rest.
Proof.
  intros Hws Hrest. induction Hws as [|w ws Hw _ IH].
  - now apply skipSpace_plain.
  - rewrite append_assoc.
    now rewrite (leadingSpace_skip _ _ (leadingSpace_append w _ Hw)).
Qed.

(** What is left does not start with white space. *)
Lemma skipSpace_stops (s : string) : startsPlain (skipSpace s).
Proof.
  unfold startsPlain.
  assert (H : forall n s, (String.length s <= n)%nat ->
                          leadingSpace (skipSpace s) = None).
  { clear s. induction n as [|n IH]; intros s Hn; rewrite skipSpace_unfold;
      destruct (leadingSpace s) as [t|] eqn:Hs; try exact Hs;
      apply leadingSpace_shorter in Hs; [lia | apply IH; lia]. }
  now apply (H (String.length s)).
Qed.

(** A white-space character at the start of a text that ends in an ASCII
    character other than white space leaves that end in place. *)
Lemma leadingSpace_before_last (x t : string) (c : ascii) :
  space1 c = false -> (code c <? 128)%N = true ->
  leadingSpace (x ++ String c "") = Some t ->
  exists x', t = x' ++ String c ""
             /\ (String.length x' < String.length x)%nat.
Proof.
  intros Hc Hlow. apply N.ltb_lt in Hlow.
  destruct x as [|c1 x1]; cbn [leadingSpace append String.length].
  - now rewrite Hc.
  - destruct (space1 c1); [intros [= <-]; exists x1; split; [reflexivity | lia] |].
    destruct x1 as [|c2 x2]; cbn [append String.length].
    + destruct (space2 c1 c) eqn:H2; [| discriminate].
      apply space2_high in H2. lia.
    + destruct (space2 c1 c2);
        [intros [= <-]; exists x2; split; [reflexivity | lia] |].
      destruct x2 as [|c3 x3]; cbn [append String.length].
      * destruct (space3 c1 c2 c) eqn:H3; [| discriminate].
        apply space3_high in H3. lia.
      * destruct (space3 c1 c2 c3); [| discriminate].
        intros [= <-]. exists x3. split; [reflexivity | lia].
Qed.

(** Text that ends in an ASCII character other than white space is not
    white space as a whole, from wherever it is read. *)
Lemma skipSpace_keeps_last (x : string) (c : ascii) :
  space1 c = false -> (code c <? 128)%N = true ->
  skipSpace (x ++ String c "") <> "".
Proof.
  intros Hc Hlow.
  assert (H : forall n x, (String.length x <= n)%nat ->
                          skipSpace (x ++ String c "") <> "").
  { clear x. induction n as [|n IH]; intros x Hn; rewrite skipSpace_unfold;
      destruct (leadingSpace (x ++ String c "")) as [t|] eqn:Hs;
      try (now destruct x);
      apply (leadingSpace_before_last _ _ _ Hc Hlow) in Hs as (x' & -> & Hx');
      [lia | apply IH; lia]. }
  now apply (H (String.length x)).
Qed.

(** Text that does not start with white space does not start with it when
    an ASCII character follows. *)
Lemma startsPlain_append (x s : string) (c : ascii) :
  x <> "" -> startsPlain x -> (code c <? 128)%N = true ->
  startsPlain (x ++ String c s).
Proof.
  unfold startsPlain. intros Hne Hx Hlow. apply N.ltb_lt in Hlow.
  destruct x as [|c1 [|c2 [|c3 x]]]; [congruence | | |];
    cbn [leadingSpace append] in *.
  - destruct (space1 c1); [discriminate |].
    destruct (space2 c1 c) eqn:H2; [apply space2_high in H2; lia |].
    destruct s as [|c3 s]; [reflexivity |].
    destruct (space3 c1 c c3) eqn:H3; [apply space3_high in H3; lia |].
    reflexivity.
  - destruct (space1 c1); [discriminate |].
    destruct (space2 c1 c2); [discriminate |].
    destruct (space3 c1 c2 c) eqn:H3; [apply space3_high in H3; lia |].
    reflexivity.
  - destruct (space1 c1); [discriminate |].
    destruct (space2 c1 c2); [discriminate |].
    destruct (space3 c1 c2 c3); [discriminate | reflexivity].
Qed.

(** Lower case. On ASCII text [toLowerCase] is the lowering of the letters
    one by one. *)
Lemma toLowerCase_cons (c : ascii) (s : string) :
  isAscii c = true ->
  toLowerCase (String c s) = String (toLowerChar c) (toLowerCase s).
Proof.
  unfold isAscii. intros Hc. apply N.ltb_lt in Hc.
  assert (H196 : (code c =? 196)%N = false) by (apply N.eqb_neq; lia).
  assert (H226 : (code c =? 226)%N = false) by (apply N.eqb_neq; lia).
  destruct s as [|c2 s2]; [reflexivity |].
  remember (String c2 s2) as s1 eqn:Hs1. cbn [toLowerCase].
  rewrite H196, H226. cbn [andb]. subst s1.
  now destruct s2.
Qed.

Lemma toLowerCase_ascii (s : string) :
  allOf isAscii s -> toLowerCase s = lowerAscii s.
Proof.
  unfold allOf. induction s as [|c s IH]; [reflexivity |].
  cbn [chars forallb]. intros H. apply andb_true_iff in H as [Hc Hs].
  rewrite (toLowerCase_cons c s Hc). cbn [lowerAscii]. now rewrite IH.
Qed.

(** Outside the ASCII range: the Kelvin sign is a [k] for [toLowerCase] and
    for no pattern, and the no-break space is white space. *)
Lemma toLowerCase_kelvin :
  toLowerCase ("BREA" ++ kelvin ++ "ING: x") = "breaking: x"
  /\ lowerAscii ("BREA" ++ kelvin ++ "ING: x") = "brea" ++ kelvin ++ "ing: x"
  /\ Regex.stripPrefix "breaking" ("BREA" ++ kelvin ++ "ING: x")
     = "BREA" ++ kelvin ++ "ING: x".
Proof. repeat split. Qed.

Lemma skipSpace_nbsp :
  skipSpace (" " ++ nbsp ++ LF ++ "x" ++ nbsp) = "x" ++ nbsp
  /\ Summarizer.trim (nbsp ++ " x y" ++ nbsp ++ " ") = "x y".
Proof. split; reflexivity. Qed.

(** ** Lists *)

Lemma filter_filter_implied {A : Type} (p q : A -> bool) (l : list A) :
  (forall x, q x = true -> p x = true) -> filter q (filter p l) = filter q l.
Proof.
  intros Himp. induction l as [|x l IH]; simpl; [reflexivity |].
  destruct (p x) eqn:Hp; simpl.
  - now rewrite IH.
  - destruct (q x) eqn:Hq; [| exact IH].
    apply Himp in Hq. congruence.
Qed.

Lemma filter_or_perm {A : Type} (p q : A -> bool) (l : list A) :
  (forall x, p x = true -> q x = false) ->
  Permutation (filter p l ++ filter q l) (filter (fun x => p x || q x) l).
Proof.
  intros Hex. induction l as [|x l IH]; simpl; [constructor |].
  destruct (p x) eqn:Hp; simpl.
  - rewrite (Hex x Hp). now constructor.
  - destruct (q x); [| exact IH].
    symmetry. apply Permutation_cons_app. now symmetry.
Qed.

Lemma concat_perm {A : Type} (l l' : list (list A)) :
  Permutation l l' -> Permutation (concat l) (concat l').
Proof.
  induction 1 as [| x l l' _ IH | x y l | l l' l'' _ IH1 _ IH2]; simpl.
  - constructor.
  - now apply Permutation_app_head.
  - rewrite !app_assoc. apply Permutation_app_tail, Permutation_app_comm.
  - now transitivity (concat l').
Qed.

Lemma firstn_sorted {A : Type} (R : A -> A -> Prop) (n : nat) (l : list A) :
  StronglySorted R l -> StronglySorted R (firstn n l).
Proof.
  intros Hs. revert n. induction Hs as [|x l _ IH Hx]; intros [|n]; simpl;
    try constructor.
  - apply IH.
  - rewrite Forall_forall in *. intros y Hy. apply Hx.
    rewrite <- (firstn_skipn n l). apply in_or_app. now left.
Qed.

(** ** Arrays: searching and sorting *)

Lemma findIndex_Some {A : Type} (p : A -> bool) (f : A -> A) (l : list A)
  (i : nat) :
  findIndex p l = Some i ->
  exists before x after,
    l = (before ++ x :: after)%list
    /\ List.length before = i
    /\ p x = true
    /\ Forall (fun y => p y = false) before
    /\ updateAt i f l = (before ++ f x :: after)%list.
Proof.
  revert i. induction l as [|y l IH]; simpl; intros i H; [discriminate |].
  destruct (p y) eqn:Hy.
  - injection H as <-. exists [], y, l. repeat split; auto.
  - destruct (findIndex p l) as [j|]; [| discriminate].
    injection H as <-.
    destruct (IH j eq_refl) as (before & x & after & -> & <- & Hx & Hb & Hu).
    exists (y :: before), x, after. simpl. rewrite Hu.
    repeat split; auto.
Qed.

Lemma findIndex_None {A : Type} (p : A -> bool) (l : list A) :
  findIndex p l = None -> Forall (fun y => p y = false) l.
Proof.
  induction l as [|y l IH]; simpl; intros H; [constructor |].
  destruct (p y) eqn:Hy; [discriminate |].
  destruct (findIndex p l); [discriminate |].
  constructor; auto.
Qed.

Lemma findIndex_first {A : Type} (p : A -> bool) (before : list A) (x : A)
  (after : list A) :
  Forall (fun y => p y = false) before -> p x = true ->
  findIndex p (before ++ x :: after) = Some (List.length before).
Proof.
  intros Hb Hx. induction Hb as [|y before Hy _ IH]; simpl.
  - now rewrite Hx.
  - now rewrite Hy, IH.
Qed.

Lemma findIndex_absent {A : Type} (p : A -> bool) (l : list A) :
  Forall (fun y => p y = false) l -> findIndex p l = None.
Proof.
  intros Hl. induction Hl as [|y l Hy _ IH]; simpl; [reflexivity |].
  now rewrite Hy, IH.
Qed.

Lemma insertBy_perm {A : Type} (le : A -> A -> bool) (x : A) (l : list A) :
  Permutation (insertBy le x l) (x :: l).
Proof.
  induction l as [|y l IH]; simpl; [reflexivity |].
  destruct (le x y); [reflexivity |].
  rewrite IH. apply perm_swap.
Qed.

Lemma sortBy_perm {A : Type} (le : A -> A -> bool) (l : list A) :
  Permutation (sortBy le l) l.
Proof.
  induction l as [|x l IH]; simpl; [reflexivity |].
  rewrite insertBy_perm. now constructor.
Qed.

(** The sort is stable: elements that the order does not tell apart keep
    their places. *)
Lemma insertBy_filter {A : Type} (le : A -> A -> bool) (q : A -> bool) (x : A)
  (l : list A) :
  (forall y, q x = true -> q y = true -> le x y = true) ->
  filter q (insertBy le x l) = filter q (x :: l).
Proof.
  intros Hsame. induction l as [|y l IH]; [reflexivity |].
  cbn [insertBy]. destruct (le x y) eqn:Hle; [reflexivity |].
  cbn [filter] in *. destruct (q x) eqn:Hx, (q y) eqn:Hy.
  - rewrite (Hsame y eq_refl Hy) in Hle. discriminate.
  - exact IH.
  - now rewrite IH.
  - exact IH.
Qed.

Lemma sortBy_stable {A : Type} (le : A -> A -> bool) (q : A -> bool)
  (l : list A) :
  (forall x y, q x = true -> q y = true -> le x y = true) ->
  filter q (sortBy le l) = filter q l.
Proof.
  intros Hsame. induction l as [|x l IH]; [reflexivity |].
  cbn [sortBy]. rewrite insertBy_filter by (intros y; apply Hsame).
  cbn [filter]. now rewrite IH.
Qed.

Section Sorted.

Context {A : Type} (le : A -> A -> bool) (R : A -> A -> Prop).
Hypothesis le_true : forall x y, le x y = true -> R x y.
Hypothesis le_false : forall x y, le x y = false -> R y x.
Hypothesis R_trans : forall x y z, R x y -> R y z -> R x z.

Lemma insertBy_sorted (x : A) (l : list A) :
  StronglySorted R l -> StronglySorted R (insertBy le x l).
Proof.
  induction l as [|y l IH]; simpl; intros Hs.
  - repeat constructor.
  - inversion Hs as [|? ? Hl Hy]; subst.
    destruct (le x y) eqn:Hxy.
    + constructor; [exact Hs |].
      constructor; [now apply le_true |].
      eapply Forall_impl; [| exact Hy].
      intros z Hz. eapply R_trans; [apply le_true; exact Hxy | exact Hz].
    + constructor; [now apply IH |].
      eapply Permutation_Forall; [symmetry; apply insertBy_perm |].
      constructor; [now apply le_false | exact Hy].
Qed.

Lemma sortBy_sorted (l : list A) : StronglySorted R (sortBy le l).
Proof.
  induction l as [|x l IH]; simpl; [constructor | now apply insertBy_sorted].
Qed.

End Sorted.

(** ** Own properties *)

Lemma getOwn_set_same {V : Type} (o : Obj V) (k : string) (v : V) :
  getOwn (set o k v) k = Some v.
Proof.
  induction o as [|[k' v'] o IH]; simpl.
  - now rewrite String.eqb_refl.
  - destruct (String.eqb k' k) eqn:Hk; simpl; now rewrite Hk.
Qed.

Lemma getOwn_set_other {V : Type} (o : Obj V) (k k' : string) (v : V) :
  k <> k' -> getOwn (set o k v) k' = getOwn o k'.
Proof.
  intros Hne. induction o as [|[k0 v0] o IH]; simpl.
  - apply String.eqb_neq in Hne. now rewrite Hne.
  - destruct (String.eqb_spec k0 k) as [-> | Hk]; simpl.
    + apply String.eqb_neq in Hne. now rewrite Hne.
    + now rewrite IH.
Qed.

Lemma set_absent {V : Type} (o : Obj V) (k : string) (v : V) :
  getOwn o k = None -> set o k v = (o ++ [(k, v)])%list.
Proof.
  induction o as [|[k' v'] o IH]; simpl; intros H; [reflexivity |].
  destruct (String.eqb k' k); [discriminate |]. now rewrite IH.
Qed.

Lemma set_set {V : Type} (o : Obj V) (k : string) (v v' : V) :
  set (set o k v) k v' = set o k v'.
Proof.
  induction o as [|[k0 v0] o IH]; simpl.
  - now rewrite String.eqb_refl.
  - destruct (String.eqb k0 k) eqn:Hk; simpl; rewrite Hk; [reflexivity |].
    now rewrite IH.
Qed.

Lemma set_present {V : Type} (o : Obj V) (k : string) (v v' : V) :
  getOwn o k = Some v ->
  exists o1 o2,
    o = (o1 ++ (k, v) :: o2)%list /\ set o k v' = (o1 ++ (k, v') :: o2)%list.
Proof.
  induction o as [|[k0 v0] o IH]; simpl; intros H; [discriminate |].
  destruct (String.eqb_spec k0 k) as [-> | Hk].
  - injection H as ->. now exists [], o.
  - destruct (IH H) as (o1 & o2 & -> & ->).
    now exists ((k0, v0) :: o1), o2.
Qed.

Lemma getOwn_None {V : Type} (o : Obj V) (k : string) :
  getOwn o k = None -> ~ In k (map fst o).
Proof.
  induction o as [|[k0 v0] o IH]; simpl; intros H; [tauto |].
  destruct (String.eqb_spec k0 k) as [-> | Hk]; [discriminate |].
  intros [Heq | Hin]; [congruence | now apply IH].
Qed.

Lemma getOwn_In {V : Type} (o : Obj V) (k : string) (v : V) :
  NoDup (map fst o) -> In (k, v) o -> getOwn o k = Some v.
Proof.
  induction o as [|[k0 v0] o IH]; simpl; intros Hnd Hin; [tauto |].
  inversion Hnd as [|? ? Hk0 Hnd']; subst.
  destruct Hin as [[= -> ->] | Hin].
  - now rewrite String.eqb_refl.
  - destruct (String.eqb_spec k0 k) as [-> | _]; [| now apply IH].
    destruct Hk0. now apply (in_map fst) in Hin.
Qed.

(** [Object.keys] lists every own property once. *)
Lemma keys_perm {V : Type} (o : Obj V) : Permutation (keys o) (map fst o).
Proof.
  unfold keys. rewrite sortBy_perm.
  etransitivity; [apply filter_or_perm | ].
  - intros k Hk. now rewrite Hk.
  - rewrite (filter_ext (fun k => isIndex k || negb (isIndex k)) (fun _ => true)).
    + clear. induction (map fst o) as [|k l IH]; simpl; [constructor |].
      now constructor.
    + intros k. now destruct (isIndex k).
Qed.

(** ** The conventional-commit pattern *)

Lemma closeParen_complete (body rest : string) :
  allOf notClose body -> Regex.closeParen (body ++ ")" ++ rest) = Some rest.
Proof.
  unfold allOf, notClose. induction body as [|c body IH]; simpl; intros H.
  - reflexivity.
  - apply andb_true_iff in H as [Hc H].
    apply negb_true_iff in Hc. rewrite Hc. exact (IH H).
Qed.

Lemma closeParen_sound (s rest : string) :
  Regex.closeParen s = Some rest ->
  exists body, s = body ++ ")" ++ rest /\ allOf notClose body.
Proof.
  unfold allOf, notClose. revert rest.
  induction s as [|c s IH]; simpl; intros rest H; [discriminate |].
  destruct (Ascii.eqb_spec c ")") as [-> | Hc].
  - injection H as <-. exists "". split; reflexivity.
  - destruct (IH _ H) as (body & -> & Hb).
    exists (String c body). split; [reflexivity |].
    simpl. rewrite Hb. apply Ascii.eqb_neq in Hc. now rewrite Hc.
Qed.

Lemma scopeColon_complete (sc rest : string) :
  Scope sc -> Regex.scopeColon (sc ++ ":" ++ rest) = Some rest.
Proof.
  intros [| body Hne Hb].
  - reflexivity.
  - destruct body as [|c body]; [congruence |].
    unfold Regex.scopeColon, Regex.scope. simpl.
    unfold allOf in Hb. simpl in Hb. apply andb_true_iff in Hb as [Hc Hb].
    unfold notClose in Hc. apply negb_true_iff in Hc. rewrite Hc.
    rewrite append_assoc.
    rewrite (closeParen_complete body (String ":" rest) Hb).
    reflexivity.
Qed.

Lemma scopeColon_sound (r rest : string) :
  Regex.scopeColon r = Some rest ->
  exists sc, Scope sc /\ r = sc ++ ":" ++ rest.
Proof.
  unfold Regex.scopeColon. intros H.
  assert (Hcolon : forall s t, Regex.colon s = Some t -> s = ":" ++ t).
  { intros s t. unfold Regex.colon.
    destruct s as [|c s]; [discriminate |].
    destruct (Ascii.eqb_spec c ":") as [-> | Hc].
    - now intros [= ->].
    - destruct c as [[] [] [] [] [] [] [] []]; try discriminate; congruence. }
  destruct (Regex.scope r) as [r1|] eqn:Hs.
  - destruct (Regex.colon r1) as [r2|] eqn:Hc1.
    + injection H as <-. apply Hcolon in Hc1. subst r1.
      unfold Regex.scope in Hs.
      destruct r as [|a r]; [discriminate |].
      destruct (Ascii.eqb_spec a "(") as [-> | Ha];
        [| destruct a as [[] [] [] [] [] [] [] []]; try discriminate; congruence].
      destruct r as [|c r]; [discriminate |].
      destruct (Ascii.eqb_spec c ")") as [-> | Hc]; [discriminate |].
      apply closeParen_sound in Hs as (body & -> & Hb).
      exists ("(" ++ String c body ++ ")"). split.
      * apply InParens; [discriminate |].
        unfold allOf, notClose in *. simpl. rewrite Hb.
        apply Ascii.eqb_neq in Hc. now rewrite Hc.
      * simpl. now rewrite append_assoc.
    + apply Hcolon in H. exists "". split; [constructor | exact H].
  - apply Hcolon in H. exists "". split; [constructor | exact H].
Qed.

Lemma scope_colon_stops (sc rest : string) :
  Scope sc -> stopsAt isWordChar (sc ++ ":" ++ rest).
Proof. intros [| body _ _]; reflexivity. Qed.

Lemma conventional_complete (w sc rest : string) :
  Word w -> Scope sc ->
  Regex.conventional (w ++ sc ++ ":" ++ rest) = Some (w, rest).
Proof.
  intros [Hne Hw] Hsc. unfold Regex.conventional.
  rewrite (span_unique isWordChar w _ Hw (scope_colon_stops sc rest Hsc)).
  destruct w as [|c w]; [congruence |].
  now rewrite (scopeColon_complete sc rest Hsc).
Qed.

Lemma conventional_sound (message w rest : string) :
  Regex.conventional message = Some (w, rest) ->
  exists sc, Word w /\ Scope sc /\ message = w ++ sc ++ ":" ++ rest.
Proof.
  unfold Regex.conventional. intros H.
  pose proof (span_append isWordChar message) as Happ.
  pose proof (span_all isWordChar message) as Hall.
  destruct (span isWordChar message) as [w0 r]; simpl in *.
  destruct w0 as [|c w0]; [discriminate |].
  destruct (Regex.scopeColon r) as [rest0|] eqn:Hr; [| discriminate].
  injection H as <- <-.
  apply scopeColon_sound in Hr as (sc & Hsc & ->).
  exists sc. repeat split; [discriminate | exact Hall | exact Hsc | now symmetry].
Qed.

(** The type of a message that starts with a word, an optional
    parenthesised scope and a colon is that word; every other message has
    the type [other]. *)
Lemma commitType_is_capture_group :
  (forall w sc rest : string,
      Word w -> Scope sc ->
      Changelog.commitType (w ++ sc ++ ":" ++ rest) = w)
  /\ (forall message : string,
         (forall w sc rest, Word w -> Scope sc ->
                            message <> w ++ sc ++ ":" ++ rest) ->
         Changelog.commitType message = "other").
Proof.
  split.
  - intros w sc rest Hw Hsc. unfold Changelog.commitType.
    now rewrite (conventional_complete w sc rest Hw Hsc).
  - intros message Hno. unfold Changelog.commitType.
    destruct (Regex.conventional message) as [[w rest]|] eqn:Hm; [| reflexivity].
    apply conventional_sound in Hm as (sc & Hw & Hsc & Heq).
    now destruct (Hno w sc rest Hw Hsc).
Qed.

Lemma commitType_is_capture_group_witness :
  Changelog.commitType "feat(ui): x" = "feat"
  /\ Changelog.commitType "no prefix here" = "other".
Proof.
  split.
  - apply (proj1 commitType_is_capture_group "feat" "(ui)" " x").
    + split; [discriminate | reflexivity].
    + apply (InParens "ui"); [discriminate | reflexivity].
  - apply (proj2 commitType_is_capture_group "no prefix here").
    intros w sc rest [Hne Hw] Hsc Heq.
    assert (H : Regex.conventional "no prefix here" = Some (w, rest))
      by (rewrite Heq; apply conventional_complete; [split |]; assumption).
    discriminate H.
Defined.

(** C1 fails on the code at a message whose leading word has an upper-case
    letter. The classifier takes the word as it is written: the type of
    ["Feat: remember me"] is [Feat], where the specification has the
    lower-cased [feat]. The internal layout so splits one type over two
    sections, [## Features] for the commit written [feat:] and a stray
    [## Feat] for the one written [Feat:]; the external layout of the same
    two commits, which compares in lower case, has both under the one
    heading. *)
Theorem commitType_keeps_upper_case :
  Changelog.commitType "Feat: remember me" = "Feat"
  /\ lowerCasedType "Feat: remember me" = "feat"
  /\ Changelog.generateInternalChangelog forgeTimestamp "repo"
       [addLogin; rememberMe] "d"
     = Ok (internalHeader "repo" "d"
           ++ "## Features" ++ LF ++ LF
           ++ "- **abc1234** feat: add login (Ann, 2024-01-02)" ++ LF ++ LF
           ++ "## Feat" ++ LF ++ LF
           ++ "- **7654321** Feat: remember me (Cy, 2024-01-04)" ++ LF ++ LF)
  /\ Changelog.generateExternalChangelog "repo" [addLogin; rememberMe] "d"
     = externalHeader "repo" "d"
       ++ Changelog.headingFeatures ++ LF ++ LF
       ++ "- add login" ++ LF ++ "- remember me" ++ LF ++ LF.
Proof. repeat split. Qed.

(** ** The external layout *)

Lemma keyword_complete (kw k r : string) :
  Keyword kw k -> Regex.keyword kw (k ++ r) = Some r.
Proof.
  unfold Keyword. intros <-.
  induction k as [|c k IH]; simpl.
  - now destruct r.
  - now rewrite Ascii.eqb_refl.
Qed.

Lemma keyword_sound (kw s r : string) :
  Regex.keyword kw s = Some r -> exists k, Keyword kw k /\ s = k ++ r.
Proof.
  unfold Keyword. revert s.
  induction kw as [|a kw IH]; intros s H.
  - exists "". destruct s; simpl in H; injection H as <-; now split.
  - destruct s as [|c s]; simpl in H; [discriminate |].
    destruct (Ascii.eqb_spec (toLowerChar c) a) as [<- | _]; [| discriminate].
    destruct (IH _ H) as (k & <- & ->).
    exists (String c k). now split.
Qed.

Lemma stripPrefix_complete (kw k sc ws rest : string) :
  Keyword kw k -> Scope sc -> Spaces ws -> startsPlain rest ->
  Regex.stripPrefix kw (k ++ sc ++ ":" ++ ws ++ rest) = rest.
Proof.
  intros Hk Hsc Hws Hrest. unfold Regex.stripPrefix.
  rewrite (keyword_complete kw k _ Hk).
  rewrite (scopeColon_complete sc (ws ++ rest) Hsc).
  now apply skipSpace_spaces.
Qed.

Lemma stripPrefix_unchanged (kw message : string) :
  (forall k sc tail, Keyword kw k -> Scope sc ->
                     message <> k ++ sc ++ ":" ++ tail) ->
  Regex.stripPrefix kw message = message.
Proof.
  intros Hno. unfold Regex.stripPrefix.
  destruct (Regex.keyword kw message) as [r|] eqn:Hkw; [| reflexivity].
  destruct (Regex.scopeColon r) as [tail|] eqn:Hr; [| reflexivity].
  apply keyword_sound in Hkw as (k & Hk & ->).
  apply scopeColon_sound in Hr as (sc & Hsc & ->).
  now destruct (Hno k sc tail Hk Hsc).
Qed.

Lemma fold_entries (kw : string) (b : list Changelog.Commit) (acc : string) :
  fold_left
    (fun changelog c =>
       changelog ++ "- "
       ++ Regex.stripPrefix kw (Changelog.message (Changelog.commit c)) ++ LF)
    b acc
  = acc ++ unlines (map (externalEntry kw) b).
Proof.
  revert acc. induction b as [|c b IH]; intros acc; simpl.
  - now rewrite append_empty_r.
  - rewrite IH. unfold externalEntry.
    rewrite !append_assoc. simpl. now rewrite !append_assoc.
Qed.

Lemma addSection_spec (heading kw : string) (b : list Changelog.Commit)
  (acc : string) :
  Changelog.addSection heading kw b acc = acc ++ externalSection heading kw b.
Proof.
  unfold Changelog.addSection. destruct b as [|c b].
  - simpl. now rewrite append_empty_r.
  - change (0 <? List.length (c :: b))%nat with true. cbv iota.
    rewrite fold_entries. unfold externalSection. now rewrite !append_assoc.
Qed.

Lemma bucket_of_relevant (kw : string) (commits : list Changelog.Commit) :
  In kw ["feat"; "fix"; "perf"; "breaking"] ->
  bucket kw (filter relevant commits) = bucket kw commits.
Proof.
  intros Hkw. apply filter_filter_implied. intros c Hc. unfold relevant.
  simpl in Hkw.
  destruct Hkw as [<- | [<- | [<- | [<- | []]]]]; rewrite Hc;
    now rewrite ?orb_true_r.
Qed.

Lemma generateExternalChangelog_layout
  (repoName : string) (commits : list Changelog.Commit) (dateRange : string) :
  Changelog.generateExternalChangelog repoName commits dateRange
  = externalLayout repoName commits dateRange.
Proof.
  unfold Changelog.generateExternalChangelog.
  change (filter _ commits) with (filter relevant commits).
  change (filter (Changelog.startsWithCI ?kw) ?l) with (bucket kw l).
  rewrite !bucket_of_relevant by (simpl; tauto).
  rewrite !addSection_spec. unfold externalLayout, externalHeader.
  now rewrite !append_assoc.
Qed.

(** The four keywords exclude one another: at most one of them starts a
    given message. *)
Lemma keywords_exclusive (s : string) :
  match startsWith s "feat", startsWith s "fix",
        startsWith s "perf", startsWith s "breaking" with
  | true, false, false, false
  | false, true, false, false
  | false, false, true, false
  | false, false, false, true
  | false, false, false, false => True
  | _, _, _, _ => False
  end.
Proof.
  destruct s as [|c1 s]; [exact I |].
  destruct c1 as [[] [] [] [] [] [] [] []]; simpl; try exact I;
    try (now destruct (startsWith s _)).
  destruct s as [|c2 s]; [exact I |].
  destruct c2 as [[] [] [] [] [] [] [] []]; simpl; try exact I;
    now destruct (startsWith s _).
Qed.

Lemma buckets_partition (commits : list Changelog.Commit) :
  Permutation
    (bucket "feat" commits ++ bucket "breaking" commits
     ++ bucket "fix" commits ++ bucket "perf" commits)%list
    (filter relevant commits).
Proof.
  assert (Hex : forall c,
             match Changelog.startsWithCI "feat" c,
                   Changelog.startsWithCI "fix" c,
                   Changelog.startsWithCI "perf" c,
                   Changelog.startsWithCI "breaking" c with
             | true, false, false, false
             | false, true, false, false
             | false, false, true, false
             | false, false, false, true
             | false, false, false, false => True
             | _, _, _, _ => False
             end).
  { intros c. unfold Changelog.startsWithCI. apply keywords_exclusive. }
  unfold relevant, bucket.
  transitivity
    (filter (Changelog.startsWithCI "breaking") commits
     ++ (filter (Changelog.startsWithCI "feat") commits
         ++ filter (Changelog.startsWithCI "fix") commits)
     ++ filter (Changelog.startsWithCI "perf") commits)%list.
  { rewrite <- !app_assoc. apply Permutation_app_swap_app. }
  rewrite (Permutation_app_comm (filter (Changelog.startsWithCI "breaking") _)).
  etransitivity; [| apply filter_or_perm].
  - apply Permutation_app_tail.
    etransitivity; [| apply filter_or_perm].
    + apply Permutation_app_tail. apply filter_or_perm.
      intros c Hc. specialize (Hex c). rewrite Hc in Hex.
      now destruct (Changelog.startsWithCI "fix" c).
    + intros c Hc. specialize (Hex c).
      destruct (Changelog.startsWithCI "feat" c),
               (Changelog.startsWithCI "fix" c),
               (Changelog.startsWithCI "perf" c),
               (Changelog.startsWithCI "breaking" c);
        simpl in *; try discriminate; try reflexivity; contradiction.
  - intros c Hc. specialize (Hex c).
    destruct (Changelog.startsWithCI "feat" c),
             (Changelog.startsWithCI "fix" c),
             (Changelog.startsWithCI "perf" c),
             (Changelog.startsWithCI "breaking" c);
      simpl in *; try discriminate; try reflexivity; contradiction.
Qed.


(** C2, as the code has it. The external layout is the header followed by
    the sections New Features, Breaking Changes, Bug Fixes and Performance
    Improvements in this order, a section being there exactly when its
    bucket is not empty; the buckets hold, in input order, the commits whose
    lower-cased message starts with [feat], [breaking], [fix] and [perf],
    and together they are the commits that start with one of the four
    keywords; a commit that starts with none changes nothing in the output.
    An entry of a section is the message without the keyword of that
    section (in any case), optional scope, colon and the white space after
    it, when the message starts that way; a message that starts otherwise
    is listed as it is. *)
Theorem external_layout_lists_relevant_commits :
  forall (repoName : string) (commits : list Changelog.Commit)
         (dateRange : string),
    Changelog.generateExternalChangelog repoName commits dateRange
    = externalLayout repoName commits dateRange
    /\ Permutation
         (bucket "feat" commits ++ bucket "breaking" commits
          ++ bucket "fix" commits ++ bucket "perf" commits)%list
         (filter relevant commits)
    /\ Changelog.generateExternalChangelog repoName (filter relevant commits)
         dateRange
       = Changelog.generateExternalChangelog repoName commits dateRange
    /\ (forall kw k sc ws rest : string,
           Keyword kw k -> Scope sc -> Spaces ws -> startsPlain rest ->
           Regex.stripPrefix kw (k ++ sc ++ ":" ++ ws ++ rest) = rest)
    /\ (forall kw message : string,
           (forall k sc tail, Keyword kw k -> Scope sc ->
                              message <> k ++ sc ++ ":" ++ tail) ->
           Regex.stripPrefix kw message = message).
Proof.
  intros repoName commits dateRange. repeat split.
  - apply generateExternalChangelog_layout.
  - apply buckets_partition.
  - rewrite !generateExternalChangelog_layout. unfold externalLayout.
    now rewrite !bucket_of_relevant by (simpl; tauto).
  - apply stripPrefix_complete.
  - apply stripPrefix_unchanged.
Qed.

Lemma external_layout_lists_relevant_commits_witness :
  Changelog.generateExternalChangelog "repo"
    [ mkCommit "abc1234" "feat: add login" "A" "2024-01-02T00:00:00Z";
      mkCommit "9999999" "docs: describe login" "C" "2024-01-02T00:00:00Z";
      mkCommit "def5678" ("Fix(ui): " ++ nbsp ++ "crash on start") "B"
        "2024-01-03T00:00:00Z";
      mkCommit "0123456" ("brea" ++ kelvin ++ "ing: drop v1") "D"
        "2024-01-04T00:00:00Z" ]
    "2024-01-01 - 2024-01-08"
  = "# repo - Changelog" ++ LF ++ LF ++ "**2024-01-01 - 2024-01-08**" ++ LF ++ LF
    ++ Changelog.headingFeatures ++ LF ++ LF ++ "- add login" ++ LF ++ LF
    ++ Changelog.headingBreaking ++ LF ++ LF
    ++ "- brea" ++ kelvin ++ "ing: drop v1" ++ LF ++ LF
    ++ Changelog.headingFixes ++ LF ++ LF ++ "- crash on start" ++ LF ++ LF
  /\ Regex.stripPrefix "fix" ("Fix(ui): " ++ nbsp ++ "crash on start")
     = "crash on start".
Proof.
  split.
  - rewrite (proj1 (external_layout_lists_relevant_commits "repo" _ _)).
    reflexivity.
  - apply (proj1 (proj2 (proj2 (proj2
             (external_layout_lists_relevant_commits "" [] ""))))
             "fix" "Fix" "(ui)" (" " ++ nbsp) "crash on start").
    + reflexivity.
    + apply (InParens "ui"); [discriminate | reflexivity].
    + apply (MoreSpace " " nbsp); [reflexivity |].
      apply (MoreSpace nbsp ""); [reflexivity | constructor].
    + reflexivity.
Defined.

(** C2, as the specification states it, fails: an entry does not lose every
    conventional prefix. ["fixes: crash"] and ["feature(ui): add x"] start
    with a keyword and are listed, their prefixes [fixes:] and
    [feature(ui):] are conventional ones, and the entries are the whole
    messages. *)
Lemma external_layout_keeps_other_prefixes :
  Regex.conventional "fixes: crash" = Some ("fixes", " crash")
  /\ Regex.conventional "feature(ui): add x" = Some ("feature", " add x")
  /\ Changelog.generateExternalChangelog "repo" [fixesCrash; featureAddX] "d"
     = externalHeader "repo" "d"
       ++ Changelog.headingFeatures ++ LF ++ LF
       ++ "- feature(ui): add x" ++ LF ++ LF
       ++ Changelog.headingFixes ++ LF ++ LF
       ++ "- fixes: crash" ++ LF ++ LF.
Proof. repeat split. Qed.




(** ** The internal layout *)

(** One turn of the grouping loop on a commit of a plain type: the commit
    goes to the end of the group of its type, a new group goes last. *)
Lemma addCommit_plain (types : Obj (list Changelog.Commit))
  (c : Changelog.Commit) :
  plainType c ->
  Changelog.addCommit types c
  = Ok match
         getOwn types
           (Changelog.commitType (Changelog.message (Changelog.commit c)))
       with
       | Some group =>
           set types
             (Changelog.commitType (Changelog.message (Changelog.commit c)))
             (group ++ [c])%list
       | None =>
           (types
            ++ [(Changelog.commitType (Changelog.message (Changelog.commit c)),
                 [c])])%list
       end.
Proof.
  unfold plainType, Changelog.addCommit, get. intros Hplain.
  destruct (getOwn types _) as [group|] eqn:Hg.
  - now rewrite Hg.
  - rewrite Hplain, getOwn_set_same, set_set. simpl.
    now rewrite (set_absent _ _ _ Hg).
Qed.

Lemma addCommit_groups (types : Obj (list Changelog.Commit))
  (done : list Changelog.Commit) (c : Changelog.Commit) :
  plainType c -> groups types done ->
  exists types',
    Changelog.addCommit types c = Ok types' /\ groups types' (done ++ [c])%list.
Proof.
  intros Hplain (Hnd & Hperm & Hall).
  rewrite (addCommit_plain types c Hplain).
  set (type := Changelog.commitType (Changelog.message (Changelog.commit c))).
  destruct (getOwn types type) as [group|] eqn:Hg;
    eexists; (split; [reflexivity |]).
  - destruct (set_present types type group (group ++ [c])%list Hg)
      as (o1 & o2 & Ho & ->).
    rewrite Ho in Hnd, Hperm, Hall. split; [| split].
    + rewrite map_app in *. exact Hnd.
    + rewrite map_app, concat_app in *. simpl in *.
      rewrite <- Hperm, <- !app_assoc.
      apply Permutation_app_head, Permutation_app_head.
      apply Permutation_app_comm.
    + apply Forall_app in Hall as [H1 H2].
      inversion H2 as [|? ? Hgroup H3]; subst.
      apply Forall_app. split; [exact H1 |].
      constructor; [| exact H3].
      simpl in *. apply Forall_app. split; [exact Hgroup |].
      now constructor.
  - split; [| split].
    + rewrite map_app. simpl.
      apply Permutation_NoDup with (l := type :: map fst types).
      * apply Permutation_cons_append.
      * constructor; [now apply getOwn_None | exact Hnd].
    + rewrite map_app, concat_app. simpl.
      now apply Permutation_app_tail.
    + apply Forall_app. split; [exact Hall |].
      repeat constructor.
Qed.

Lemma groupCommitsByType_groups (commits : list Changelog.Commit) :
  Forall plainType commits ->
  exists types,
    Changelog.groupCommitsByType commits = Ok types /\ groups types commits.
Proof.
  unfold Changelog.groupCommitsByType.
  assert (Hgen : forall types done,
             Forall plainType commits -> groups types done ->
             exists types',
               forEachM Changelog.addCommit commits types = Ok types'
               /\ groups types' (done ++ commits)%list).
  { induction commits as [|c commits IH]; intros types done Hplain Hg.
    - exists types. rewrite app_nil_r. now split.
    - inversion Hplain as [|? ? Hc Hrest]; subst.
      destruct (addCommit_groups types done c Hc Hg) as (types1 & Hstep & Hg1).
      destruct (IH types1 (done ++ [c])%list Hrest Hg1) as (types2 & Hrun & Hg2).
      exists types2. simpl. rewrite Hstep. simpl.
      rewrite <- app_assoc in Hg2. now split. }
  intros Hplain. apply (Hgen [] [] Hplain).
  repeat split; constructor.
Qed.

Lemma groups_perm (sections sections' : list (string * list Changelog.Commit))
  (commits : list Changelog.Commit) :
  Permutation sections sections' -> groups sections commits ->
  groups sections' commits.
Proof.
  intros Hp (Hnd & Hperm & Hall). split; [| split].
  - eapply Permutation_NoDup; [apply Permutation_map; exact Hp | exact Hnd].
  - rewrite <- Hperm. symmetry. apply concat_perm, Permutation_map, Hp.
  - eapply Permutation_Forall; eassumption.
Qed.

Lemma ownGroup_In (types : Obj (list Changelog.Commit)) (k : string)
  (group : list Changelog.Commit) :
  NoDup (map fst types) -> In (k, group) types ->
  Changelog.ownGroup types k = group.
Proof.
  intros Hnd Hin. unfold Changelog.ownGroup, get.
  now rewrite (getOwn_In types k group Hnd Hin).
Qed.

(** The sections in the order of [Object.keys] are the groups again. *)
Lemma sections_of_keys (types : Obj (list Changelog.Commit)) :
  NoDup (map fst types) ->
  Permutation
    (map (fun k => (k, Changelog.ownGroup types k)) (keys types)) types.
Proof.
  intros Hnd.
  rewrite (Permutation_map _ (keys_perm types)), map_map.
  rewrite (map_ext_in _ (fun section => section)).
  - now rewrite map_id.
  - intros [k group] Hin. simpl. now rewrite (ownGroup_In types k group Hnd Hin).
Qed.

Lemma entryLine_readable (toISOString : string -> Result string)
  (c : Changelog.Commit) :
  readableDate toISOString c ->
  Changelog.entryLine toISOString c = Ok (internalEntry toISOString c ++ LF).
Proof.
  intros [iso Hiso]. unfold Changelog.entryLine, internalEntry, bind.
  rewrite Hiso. f_equal. now rewrite !append_assoc.
Qed.

Lemma forEach_entries (toISOString : string -> Result string)
  (group : list Changelog.Commit) (acc : string) :
  Forall (readableDate toISOString) group ->
  forEachM
    (fun changelog c =>
       line <- Changelog.entryLine toISOString c ;; Ok (changelog ++ line))
    group acc
  = Ok (acc ++ unlines (map (internalEntry toISOString) group)).
Proof.
  intros Hall. revert acc.
  induction Hall as [|c group Hc _ IH]; intros acc;
    cbn [forEachM map unlines].
  - now rewrite append_empty_r.
  - rewrite (entryLine_readable toISOString c Hc). cbn [bind].
    rewrite IH. now rewrite !append_assoc.
Qed.

Lemma forEach_sections (toISOString : string -> Result string)
  (types : Obj (list Changelog.Commit)) (ks : list string) (acc : string) :
  Forall
    (fun k => Forall (readableDate toISOString) (Changelog.ownGroup types k)) ks ->
  forEachM
    (fun changelog type =>
       let changelog :=
         changelog ++ "## " ++ Changelog.formatCommitType type ++ LF ++ LF in
       changelog <-
         forEachM
           (fun changelog c =>
              line <- Changelog.entryLine toISOString c ;;
              Ok (changelog ++ line))
           (Changelog.ownGroup types type) changelog ;;
       Ok (changelog ++ LF))
    ks acc
  = Ok (acc
        ++ joined
             (map (fun k => internalSection toISOString
                              (k, Changelog.ownGroup types k)) ks)).
Proof.
  intros Hall. revert acc.
  induction Hall as [|k ks Hk _ IH]; intros acc;
    cbn [forEachM map joined].
  - now rewrite append_empty_r.
  - rewrite (forEach_entries toISOString _ _ Hk). cbn [bind].
    rewrite IH. unfold internalSection. cbn [fst snd].
    now rewrite !append_assoc.
Qed.

(** X2. Off the inherited names and with dates the runtime can read, the
    internal layout is the header followed by one section for each type,
    and the sections list every commit once, in the section of its type. *)
Lemma internal_layout_lists_every_commit
  (toISOString : string -> Result string) (repoName dateRange : string)
  (commits : list Changelog.Commit) :
  Forall plainType commits ->
  Forall (readableDate toISOString) commits ->
  exists sections,
    Changelog.generateInternalChangelog toISOString repoName commits dateRange
    = Ok (internalHeader repoName dateRange
          ++ joined (map (internalSection toISOString) sections))
    /\ groups sections commits.
Proof.
  intros Hplain Hdates.
  destruct (groupCommitsByType_groups commits Hplain) as (types & Hgroup & Hg).
  exists (map (fun k => (k, Changelog.ownGroup types k)) (keys types)).
  assert (Hsections : groups
            (map (fun k => (k, Changelog.ownGroup types k)) (keys types))
            commits).
  { eapply groups_perm; [| exact Hg].
    symmetry. apply sections_of_keys. apply Hg. }
  split; [| exact Hsections].
  unfold Changelog.generateInternalChangelog. rewrite Hgroup. cbn [bind].
  rewrite forEach_sections.
  - rewrite map_map. unfold internalHeader.
    now rewrite !append_assoc.
  - destruct Hsections as (_ & Hperm & _).
    rewrite Forall_forall. intros k Hk.
    rewrite Forall_forall. intros c Hc.
    rewrite Forall_forall in Hdates. apply Hdates.
    apply (Permutation_in _ Hperm).
    apply in_concat. exists (Changelog.ownGroup types k). split; [| exact Hc].
    rewrite map_map. simpl.
    now apply (in_map (fun k => Changelog.ownGroup types k)).
Qed.

(** C4 fails on the code at a commit whose leading word names a property
    that every object inherits: [types["toString"]] is then the built-in
    function, no group is created, [push] is missing and the renderer
    throws instead of listing the commit; the run ends in the error
    document. *)
Theorem internal_layout_throws_on_inherited_name :
  forall (toISOString : string -> Result string) (repoName dateRange : string),
    Changelog.commitType "toString: handle null" = "toString"
    /\ Changelog.generateInternalChangelog toISOString repoName [toStringFix]
         dateRange
       = Throw "types[type].push is not a function"
    /\ Changelog.generateChangelog (offline (Ok [toStringFix]))
         "https://github.com/acme/widgets" 7 "internal" false
       = {| Changelog.content :=
              "Error generating changelog: types[type].push is not a function";
            Changelog.title := "Error" |}.
Proof. intros toISOString repoName dateRange. repeat split. Qed.

(** ** The empty fetch *)

(** C5. When the forge returns no commit, the run ends at once with the
    fixed document, whatever the layout and whether or not the language
    model was asked for. *)
Theorem generateChangelog_no_commits :
  forall (w : Changelog.World) (repoUrl : string) (days : Z) (format : string)
         (useAI : bool),
    Changelog.fetchCommits w repoUrl days = Ok [] ->
    Changelog.generateChangelog w repoUrl days format useAI
    = {| Changelog.content := "No commits found for the specified period.";
         Changelog.title := "No Changes" |}.
Proof.
  intros w repoUrl days format useAI Hfetch.
  unfold Changelog.generateChangelog. rewrite Hfetch. reflexivity.
Qed.

Lemma generateChangelog_no_commits_witness :
  Changelog.generateChangelog (offline (Ok []))
    "https://github.com/acme/widgets.git" 7 "external" true
  = {| Changelog.content := "No commits found for the specified period.";
       Changelog.title := "No Changes" |}.
Proof.
  apply (generateChangelog_no_commits (offline (Ok []))
           "https://github.com/acme/widgets.git" 7 "external" true).
  reflexivity.
Defined.

(** ** The read path of the store *)

Lemma readDB_missing_or_unparseable :
  Setup.readDB Setup.Missing = Setup.fresh
  /\ Setup.readDB Setup.Unreadable = Setup.fresh
  /\ Setup.readDB Setup.Garbage = Setup.fresh
  /\ Setup.readDB (Setup.Json Setup.VNull) = Setup.fresh.
Proof. repeat split. Qed.

Lemma fresh_bothArrays : bothArrays Setup.fresh.
Proof.
  exists (Some Setup.emptyArray), (Some Setup.emptyArray). repeat split.
Qed.

Lemma ensureArray_object (k : string) (members : Obj Setup.Value) :
  exists members',
    Setup.ensureArray k (Setup.VObject members) = Ok (Setup.VObject members')
    /\ Setup.isArray (getOwn members' k) = true
    /\ (forall k', k <> k' -> getOwn members' k' = getOwn members k').
Proof.
  unfold Setup.ensureArray, Setup.getProp, bind.
  destruct (negb (Setup.truthy (getOwn members k))
            || negb (Setup.isArray (getOwn members k))) eqn:Hc.
  - exists (set members k Setup.emptyArray). split; [reflexivity |]. split.
    + now rewrite getOwn_set_same.
    + intros k' Hne. now apply getOwn_set_other.
  - exists members. split; [reflexivity |]. split; [| reflexivity].
    apply orb_false_iff in Hc as [_ Hc]. now apply negb_false_iff in Hc.
Qed.

Lemma ensureArray_array (k : string) (items : list Setup.Value)
  (named : Obj Setup.Value) :
  exists named',
    Setup.ensureArray k (Setup.VArray items named)
    = Ok (Setup.VArray items named')
    /\ Setup.isArray (getOwn named' k) = true
    /\ (forall k', k <> k' -> getOwn named' k' = getOwn named k').
Proof.
  unfold Setup.ensureArray, Setup.getProp, bind.
  destruct (negb (Setup.truthy (getOwn named k))
            || negb (Setup.isArray (getOwn named k))) eqn:Hc.
  - exists (set named k Setup.emptyArray). split; [reflexivity |]. split.
    + now rewrite getOwn_set_same.
    + intros k' Hne. now apply getOwn_set_other.
  - exists named. split; [reflexivity |]. split; [| reflexivity].
    apply orb_false_iff in Hc as [_ Hc]. now apply negb_false_iff in Hc.
Qed.

(** A file that holds a JSON object or array is read as a structure with
    both arrays, whatever its members. *)
Lemma readDB_object_or_array (v : Setup.Value) :
  (exists members, v = Setup.VObject members)
  \/ (exists items named, v = Setup.VArray items named) ->
  bothArrays (Setup.readDB (Setup.Json v)).
Proof.
  intros [[members ->] | (items & named & ->)]; unfold Setup.readDB.
  - destruct (ensureArray_object "repositories" members)
      as (o1 & -> & Hr & _).
    unfold bind at 1.
    destruct (ensureArray_object "history" o1) as (o2 & -> & Hh & Hkeep).
    exists (getOwn o2 "repositories"), (getOwn o2 "history").
    repeat split; try assumption.
    rewrite Hkeep by discriminate. exact Hr.
  - destruct (ensureArray_array "repositories" items named)
      as (o1 & -> & Hr & _).
    unfold bind at 1.
    destruct (ensureArray_array "history" items o1) as (o2 & -> & Hh & Hkeep).
    exists (getOwn o2 "repositories"), (getOwn o2 "history").
    repeat split; try assumption.
    rewrite Hkeep by discriminate. exact Hr.
Qed.

Lemma readDB_after_write (write : Setup.Write) (file : Setup.File) :
  write <> Setup.Fails -> bothArrays (Setup.readDB (Setup.setup write file)).
Proof.
  intros Hwrite.
  assert (Hfresh : bothArrays
                     (Setup.readDB
                        match write with
                        | Setup.Fails => file
                        | Setup.Lands => Setup.Json Setup.fresh
                        | Setup.LandsUnread => Setup.Unreadable
                        end))
    by (destruct write; [congruence | |]; exact fresh_bothArrays).
  destruct file as [| | | v]; try exact Hfresh.
  unfold Setup.setup.
  destruct v as [| b | literal | s | items named | members];
    try exact Hfresh.
  - cbn [Setup.getProp bind].
    destruct (_ || _ || _ || _); [exact Hfresh |].
    apply readDB_object_or_array. right. now exists items, named.
  - cbn [Setup.getProp bind].
    destruct (_ || _ || _ || _); [exact Hfresh |].
    apply readDB_object_or_array. left. now exists members.
Qed.

Lemma setup_write_fails (file : Setup.File) :
  Setup.setup Setup.Fails file = file.
Proof.
  unfold Setup.setup.
  match goal with |- (if ?needs then _ else _) = _ => now destruct needs end.
Qed.

(** X15. After an initialization pass whose write succeeds the read path
    finds both arrays, whatever the file held before. A pass whose write
    fails leaves the file as it was: a file that holds the number [5] is
    then still read as [5]. *)
Theorem readDB_after_setup :
  (forall file : Setup.File,
      bothArrays (Setup.readDB (Setup.setup Setup.Lands file))
      /\ bothArrays (Setup.readDB (Setup.setup Setup.LandsUnread file))
      /\ Setup.setup Setup.Fails file = file)
  /\ Setup.readDB (Setup.setup Setup.Fails (Setup.Json (Setup.VNumber "5")))
     = Setup.VNumber "5".
Proof.
  split; [| reflexivity].
  intros file. repeat split.
  - now apply readDB_after_write.
  - now apply readDB_after_write.
  - apply setup_write_fails.
Qed.

(** The scenario of the specification: [{"repositories": "not-an-array"}]
    is read as the empty store. *)
Lemma readDB_repositories_not_an_array :
  Setup.readDB
    (Setup.Json
       (Setup.VObject [("repositories", Setup.VString "not-an-array")]))
  = Setup.VObject
      [("repositories", Setup.VArray [] []); ("history", Setup.VArray [] [])].
Proof. reflexivity. Qed.

(** C8 fails on the code at a file whose JSON document is a number (or a
    string or a boolean): the two assignments do nothing on it, and the
    read returns the number itself, which has neither array. *)
Theorem readDB_returns_a_bare_number :
  Setup.readDB (Setup.Json (Setup.VNumber "5")) = Setup.VNumber "5"
  /\ Setup.getProp (Setup.readDB (Setup.Json (Setup.VNumber "5")))
       "repositories" = Ok None
  /\ ~ bothArrays (Setup.readDB (Setup.Json (Setup.VNumber "5"))).
Proof.
  repeat split.
  intros (repositories & history & Hr & Hra & _).
  simpl in Hr. injection Hr as <-. discriminate Hra.
Qed.

(** ** The repository table *)

Lemma sortWith_byLastUsed_sorted (repos : list Store.RepositoryRecord) :
  newestFirst (sortWith Store.byLastUsed repos).
Proof.
  unfold newestFirst, sortWith, Store.byLastUsed.
  apply sortBy_sorted; intros; try apply Z.leb_le in H;
    try apply Z.leb_gt in H; lia.
Qed.

(** The table after [saveRepository]: the old table with the first record
    of the URL touched, or with a new record at its end, then sorted. *)
Lemma saveRepository_repositories (now : Z) (u n : string) (db : Store.DB) :
  (exists before r after,
      Store.repositories db = (before ++ r :: after)%list
      /\ Store.url r = u
      /\ Forall (fun x => Store.url x <> u) before
      /\ Store.repositories (Store.saveRepository now u n db)
         = sortWith Store.byLastUsed
             (before ++ Store.touch now r :: after)%list)
  \/ (Forall (fun x => Store.url x <> u) (Store.repositories db)
      /\ Store.repositories (Store.saveRepository now u n db)
         = sortWith Store.byLastUsed
             (Store.repositories db
              ++ [{| Store.url := u; Store.name := n; Store.lastUsed := now |}])%list).
Proof.
  unfold Store.saveRepository.
  destruct (findIndex _ (Store.repositories db)) as [i|] eqn:Hfind.
  - left.
    destruct (findIndex_Some _ (Store.touch now) _ _ Hfind)
      as (before & r & after & Hl & _ & Hr & Hb & Hu).
    exists before, r, after. repeat split.
    + exact Hl.
    + now apply String.eqb_eq.
    + eapply Forall_impl; [| exact Hb].
      intros x Hx. now apply String.eqb_neq.
    + simpl. now rewrite Hu.
  - right. split; [| reflexivity].
    apply findIndex_None in Hfind.
    eapply Forall_impl; [| exact Hfind].
    intros x Hx. now apply String.eqb_neq.
Qed.

(** C10. When the table holds a record of the URL, [saveRepository] gives
    the first such record the new time and keeps its URL and its name, also
    when the call brings another name; every other record is kept as it is,
    and so is the history. The table is then sorted, so the records may
    change places. *)
Theorem saveRepository_touches_only_lastUsed :
  forall (now : Z) (url' name' : string) (db : Store.DB),
    (exists r, In r (Store.repositories db) /\ Store.url r = url') ->
    exists before r after,
      Store.repositories db = (before ++ r :: after)%list
      /\ Store.url r = url'
      /\ Forall (fun x => Store.url x <> url') before
      /\ Permutation
           (Store.repositories (Store.saveRepository now url' name' db))
           (before
            ++ {| Store.url := Store.url r; Store.name := Store.name r;
                  Store.lastUsed := now |} :: after)%list
      /\ Store.history (Store.saveRepository now url' name' db)
         = Store.history db.
Proof.
  intros now u n db (r0 & Hin & Hr0).
  destruct (saveRepository_repositories now u n db)
    as [(before & r & after & Hl & Hr & Hb & Hs) | [Hnone _]].
  - exists before, r, after. repeat split; try assumption.
    rewrite Hs. apply sortBy_perm.
  - rewrite Forall_forall in Hnone. now destruct (Hnone r0 Hin).
Qed.

Lemma saveRepository_touches_only_lastUsed_witness :
  exists before r after,
    Store.repositories sample = (before ++ r :: after)%list
    /\ Store.url r = "https://github.com/acme/widgets"
    /\ Forall (fun x => Store.url x <> "https://github.com/acme/widgets") before
    /\ Permutation
         (Store.repositories
            (Store.saveRepository 3000 "https://github.com/acme/widgets"
               "renamed" sample))
         (before
          ++ {| Store.url := Store.url r; Store.name := Store.name r;
                Store.lastUsed := 3000 |} :: after)%list
    /\ Store.history
         (Store.saveRepository 3000 "https://github.com/acme/widgets"
            "renamed" sample)
       = Store.history sample.
Proof.
  apply (saveRepository_touches_only_lastUsed 3000
           "https://github.com/acme/widgets" "renamed" sample).
  exists widgets. split; [simpl; tauto | reflexivity].
Defined.

Lemma perform_repositories (db : Store.DB) (c : Call) :
  Store.repositories (perform db c)
  = Store.repositories
      (Store.saveRepository (callTime c) (callUrl c)
         match c with
         | SaveRepository _ _ n => n
         | RecordGeneration _ _ _ n _ _ _ => n
         end db).
Proof. destruct c; reflexivity. Qed.

Lemma lastCallTime_snoc (u : string) (calls : list Call) (c : Call) :
  lastCallTime u (calls ++ [c])
  = if String.eqb (callUrl c) u then Some (callTime c)
    else lastCallTime u calls.
Proof.
  induction calls as [|c0 calls IH]; simpl.
  - reflexivity.
  - rewrite IH. destruct (String.eqb (callUrl c) u); reflexivity.
Qed.

Lemma tableOf_perm (calls : list Call) (l l' : list Store.RepositoryRecord) :
  Permutation l l' -> tableOf calls l -> tableOf calls l'.
Proof.
  intros Hp (Hnd & Hin & Hall). repeat split.
  - eapply Permutation_NoDup; [apply Permutation_map; exact Hp | exact Hnd].
  - intros H. apply Hin.
    eapply Permutation_in; [symmetry; apply Permutation_map; exact Hp | exact H].
  - intros H. apply Hin in H.
    eapply Permutation_in; [apply Permutation_map; exact Hp | exact H].
  - eapply Permutation_Forall; eassumption.
Qed.

Lemma tableOf_step (calls : list Call) (c : Call) (db : Store.DB) :
  tableOf calls (Store.repositories db) ->
  tableOf (calls ++ [c]) (Store.repositories (perform db c)).
Proof.
  intros (Hnd & Hin & Hall). rewrite perform_repositories.
  set (n := match c with
            | SaveRepository _ _ n => n
            | RecordGeneration _ _ _ n _ _ _ => n
            end).
  destruct (saveRepository_repositories (callTime c) (callUrl c) n db)
    as [(before & r & after & Hl & Hr & Hb & ->) | [Hnone ->]];
    (eapply tableOf_perm; [symmetry; apply sortBy_perm |]).
  - rewrite Hl in Hnd, Hin, Hall.
    assert (Hurls : map Store.url (before ++ Store.touch (callTime c) r :: after)
                    = map Store.url (before ++ r :: after))
      by (rewrite !map_app; reflexivity).
    assert (Hkeep : forall x, Store.url x <> callUrl c ->
              lastCallTime (Store.url x) calls = Some (Store.lastUsed x) ->
              lastCallTime (Store.url x) (calls ++ [c])
              = Some (Store.lastUsed x)).
    { intros x Hx Hx'. rewrite lastCallTime_snoc.
      destruct (String.eqb_spec (callUrl c) (Store.url x)); congruence. }
    split; [| split].
    + now rewrite Hurls.
    + intros u. rewrite Hurls, (map_app callUrl), in_app_iff, Hin. simpl.
      split; [tauto |]. intros [H | [<- | []]]; [exact H |].
      apply Hin. rewrite <- Hr. apply in_map, in_elt.
    + rewrite map_app in Hnd. simpl in Hnd.
      apply NoDup_remove_2 in Hnd. rewrite Hr in Hnd.
      apply Forall_app in Hall as [Hall1 Hall2].
      inversion Hall2 as [|? ? _ Hall3]; subst.
      apply Forall_app. split; [| constructor].
      * rewrite Forall_forall in *. intros x Hx. apply Hkeep; auto.
      * simpl. rewrite Hr, lastCallTime_snoc. now rewrite String.eqb_refl.
      * rewrite Forall_forall in *. intros x Hx. apply Hkeep; auto.
        intros Heq. apply Hnd. apply in_or_app. right.
        rewrite <- Heq. now apply in_map.
  - rewrite Forall_forall in Hnone.
    assert (Hfresh : ~ In (callUrl c) (map Store.url (Store.repositories db))).
    { intros H. apply in_map_iff in H as (x & Hx & Hi). now apply (Hnone x). }
    split; [| split].
    + rewrite map_app. simpl.
      apply Permutation_NoDup
        with (l := callUrl c :: map Store.url (Store.repositories db)).
      * apply Permutation_cons_append.
      * now constructor.
    + intros u. rewrite !map_app, !in_app_iff, Hin. simpl. tauto.
    + apply Forall_app. split.
      * rewrite Forall_forall in *. intros x Hx.
        rewrite lastCallTime_snoc.
        destruct (String.eqb_spec (callUrl c) (Store.url x)) as [Heq | _].
        -- now destruct (Hnone x Hx).
        -- now apply Hall.
      * constructor; [| constructor]. simpl.
        rewrite lastCallTime_snoc. now rewrite String.eqb_refl.
Qed.

Lemma run_snoc (calls : list Call) (c : Call) :
  run (calls ++ [c]) = perform (run calls) c.
Proof. unfold run. now rewrite fold_left_app. Qed.

Lemma run_tableOf (calls : list Call) :
  tableOf calls (Store.repositories (run calls)).
Proof.
  induction calls as [|c calls IH] using rev_ind.
  - repeat split; try constructor; simpl; tauto.
  - rewrite run_snoc. now apply tableOf_step.
Qed.

Lemma run_sorted (calls : list Call) :
  newestFirst (Store.repositories (run calls)).
Proof.
  destruct calls as [|c calls] using rev_ind.
  - constructor.
  - rewrite run_snoc, perform_repositories. apply sortWith_byLastUsed_sorted.
Qed.

(** C6. After any sequence of [saveRepository] and [saveChangelogGeneration]
    calls on the empty store, the table has one record for each URL that
    was passed and none for any other, the record's [lastUsed] is the time
    of the last call for its URL, and the table is sorted by [lastUsed],
    newest first; so is every listing of recent repositories. *)
Theorem repository_table_after_calls :
  forall calls : list Call,
    NoDup (map Store.url (Store.repositories (run calls)))
    /\ (forall u, In u (map Store.url (Store.repositories (run calls)))
                  <-> In u (map callUrl calls))
    /\ Forall
         (fun r => lastCallTime (Store.url r) calls = Some (Store.lastUsed r))
         (Store.repositories (run calls))
    /\ newestFirst (Store.repositories (run calls))
    /\ (forall limit, newestFirst (Store.getRecentRepositories limit (run calls))).
Proof.
  intros calls. destruct (run_tableOf calls) as (Hnd & Hin & Hall).
  repeat split; try assumption; try apply Hin.
  - apply run_sorted.
  - intros limit. apply firstn_sorted, sortWith_byLastUsed_sorted.
Qed.

(** ** The last run *)

Lemma sortWith_byGeneratedAt_sorted (entries : list Store.HistoryEntry) :
  StronglySorted
    (fun a b => (Store.generatedAt b <= Store.generatedAt a)%Z)
    (sortWith Store.byGeneratedAt entries).
Proof.
  unfold sortWith, Store.byGeneratedAt.
  apply sortBy_sorted; intros; try apply Z.leb_le in H;
    try apply Z.leb_gt in H; lia.
Qed.


Lemma sorted_head_max (entries : list Store.HistoryEntry)
  (e : Store.HistoryEntry) (rest : list Store.HistoryEntry) :
  sortWith Store.byGeneratedAt entries = e :: rest ->
  In e entries
  /\ forall e', In e' entries ->
                (Store.generatedAt e' <= Store.generatedAt e)%Z.
Proof.
  intros Hs.
  pose proof (sortWith_byGeneratedAt_sorted entries) as Hsorted.
  pose proof (sortBy_perm (fun a b => (Store.byGeneratedAt a b <=? 0)%Z) entries)
    as Hperm.
  fold (sortWith Store.byGeneratedAt entries) in Hperm.
  rewrite Hs in Hsorted, Hperm.
  split.
  - eapply Permutation_in; [exact Hperm | now left].
  - intros e' He'.
    apply (Permutation_in _ (Permutation_sym Hperm)) in He'.
    inversion Hsorted as [|? ? _ Hall]; subst.
    destruct He' as [<- | He']; [lia |].
    rewrite Forall_forall in Hall. now apply Hall.
Qed.


(** ** New commits since the last run *)

(** C9, as the code has it. Without a recorded hash in the latest entry of
    the URL (no entry, [null] or the empty string) the answer is the
    unknown one. With a recorded hash and a fetched page: the count is the
    position of the first commit whose hash starts with it; when the page
    is not empty and has no such commit, the count is the length of the
    page and the message says that the previous commit was not found; an
    empty page gives the count 0 and the message [No commits found]. *)
Theorem getNewCommitsSinceLastChangelog_cases :
  forall (now : Z) (repoUrl' : string) (db : Store.DB)
         (page : list Changelog.Commit),
    match
      match Store.getDaysSinceLastChangelog now repoUrl' db with
      | None => None
      | Some lastChangelog =>
          match Store.lastHash lastChangelog with
          | None | Some EmptyString => None
          | Some hash => Some hash
          end
      end
    with
    | None =>
        Store.getNewCommitsSinceLastChangelog now repoUrl' db (Ok page)
        = {| Store.newCommits := None; Store.newestHash := None;
             Store.message := Store.noPreviousHash |}
    | Some hash =>
        (forall before c after,
            page = (before ++ c :: after)%list ->
            Forall (fun x => startsWith (Changelog.sha x) hash = false) before ->
            startsWith (Changelog.sha c) hash = true ->
            Store.newCommits
              (Store.getNewCommitsSinceLastChangelog now repoUrl' db (Ok page))
            = Some (List.length before))
        /\ (page <> [] ->
            Forall (fun x => startsWith (Changelog.sha x) hash = false) page ->
            Store.newCommits
              (Store.getNewCommitsSinceLastChangelog now repoUrl' db (Ok page))
            = Some (List.length page)
            /\ Store.message
                 (Store.getNewCommitsSinceLastChangelog now repoUrl' db (Ok page))
               = Store.notInRecentHistory)
        /\ (page = [] ->
            Store.newCommits
              (Store.getNewCommitsSinceLastChangelog now repoUrl' db (Ok page))
            = Some 0%nat
            /\ Store.message
                 (Store.getNewCommitsSinceLastChangelog now repoUrl' db (Ok page))
               = "No commits found")
    end.
Proof.
  intros now u db page. unfold Store.getNewCommitsSinceLastChangelog.
  destruct (Store.getDaysSinceLastChangelog now u db) as [run|]; [| reflexivity].
  destruct (Store.lastHash run) as [[|a hash]|]; [reflexivity | | reflexivity].
  split; [| split].
  - intros before c after -> Hb Hc.
    destruct (before ++ c :: after)%list as [|first rest] eqn:Hpage.
    + now destruct before.
    + rewrite <- Hpage. now rewrite (findIndex_first _ before c after Hb Hc).
  - intros Hne Hall. destruct page as [|first rest]; [congruence |].
    now rewrite (findIndex_absent _ _ Hall).
  - now intros ->.
Qed.

Lemma getNewCommitsSinceLastChangelog_cases_witness :
  Store.newCommits
    (Store.getNewCommitsSinceLastChangelog 5000
       "https://github.com/acme/widgets" sample
       (Ok [revertLogin; addLogin; addLogin']))
  = Some 1%nat.
Proof.
  apply (proj1 (getNewCommitsSinceLastChangelog_cases 5000
                  "https://github.com/acme/widgets" sample
                  [revertLogin; addLogin; addLogin'])
           [revertLogin] addLogin [addLogin']).
  - reflexivity.
  - repeat constructor.
  - reflexivity.
Defined.

(** C9, as the specification states it, fails on an empty page: no fetched
    commit starts with the recorded hash and the count is the length of the
    page, but the message is [No commits found], not the one that says the
    previous commit was not found. *)
Lemma empty_page_is_not_flagged :
  Store.getDaysSinceLastChangelog 5000 "https://github.com/acme/widgets"
    sample
  = Some {| Store.days := 1; Store.lastDate := "2024-01-08";
               Store.lastHash := Some "abc1234" |}
  /\ Store.getNewCommitsSinceLastChangelog 5000
       "https://github.com/acme/widgets" sample (Ok [])
     = {| Store.newCommits := Some 0%nat; Store.newestHash := Some "abc1234";
          Store.message := "No commits found" |}
  /\ Store.message
       (Store.getNewCommitsSinceLastChangelog 5000
          "https://github.com/acme/widgets" sample (Ok []))
     <> Store.notInRecentHistory.
Proof. repeat split. discriminate. Qed.

(** ** The grouping, in the order the code builds it *)

Lemma firstSeen_snoc (ks : list string) (k : string) :
  firstSeen (ks ++ [k])
  = if existsb (String.eqb k) (firstSeen ks) then firstSeen ks
    else (firstSeen ks ++ [k])%list.
Proof. unfold firstSeen. now rewrite fold_left_app. Qed.

Lemma existsb_eqb_In (k : string) (ks : list string) :
  existsb (String.eqb k) ks = true <-> In k ks.
Proof.
  rewrite existsb_exists. split.
  - intros (x & Hx & Heq). apply String.eqb_eq in Heq. now subst.
  - intros Hin. exists k. split; [exact Hin | apply String.eqb_refl].
Qed.

Lemma firstSeen_In (ks : list string) (k : string) :
  In k (firstSeen ks) <-> In k ks.
Proof.
  revert k. induction ks as [|k0 ks IH] using rev_ind; intros k;
    [reflexivity |].
  rewrite firstSeen_snoc, in_app_iff. simpl.
  destruct (existsb (String.eqb k0) (firstSeen ks)) eqn:He.
  - apply existsb_eqb_In, IH in He. rewrite IH.
    split; [tauto |]. intros [H | [<- | []]]; assumption.
  - rewrite in_app_iff, IH. simpl. tauto.
Qed.

Lemma firstSeen_NoDup (ks : list string) : NoDup (firstSeen ks).
Proof.
  induction ks as [|k0 ks IH] using rev_ind; [constructor |].
  rewrite firstSeen_snoc.
  destruct (existsb (String.eqb k0) (firstSeen ks)) eqn:He; [exact IH |].
  apply Permutation_NoDup with (l := k0 :: firstSeen ks).
  - apply Permutation_cons_append.
  - constructor; [| exact IH].
    intros Hin. apply existsb_eqb_In in Hin. congruence.
Qed.

Lemma getOwn_map {V : Type} (f : string -> V) (ks : list string) (k : string) :
  getOwn (map (fun k' => (k', f k')) ks) k
  = if existsb (String.eqb k) ks then Some (f k) else None.
Proof.
  induction ks as [|k0 ks IH]; simpl; [reflexivity |].
  rewrite (String.eqb_sym k k0).
  destruct (String.eqb_spec k0 k) as [-> | _]; [reflexivity | exact IH].
Qed.

Lemma set_map {V : Type} (f : string -> V) (ks : list string) (k : string)
  (v : V) :
  NoDup ks -> In k ks ->
  set (map (fun k' => (k', f k')) ks) k v
  = map (fun k' => (k', if String.eqb k' k then v else f k')) ks.
Proof.
  induction ks as [|k0 ks IH]; simpl; intros Hnd Hin; [tauto |].
  inversion Hnd as [|? ? Hk0 Hnd']; subst.
  destruct (String.eqb_spec k0 k) as [-> | Hne].
  - f_equal. apply map_ext_in. intros k' Hk'.
    destruct (String.eqb_spec k' k) as [-> | _]; [tauto | reflexivity].
  - f_equal. apply IH; [exact Hnd' |]. destruct Hin; [congruence | assumption].
Qed.

Lemma groupOf_snoc (done : list Changelog.Commit) (c : Changelog.Commit)
  (type : string) :
  groupOf (done ++ [c]) type
  = (groupOf done type
     ++ if String.eqb (typeOf c) type then [c] else [])%list.
Proof. unfold groupOf. rewrite filter_app. reflexivity. Qed.

Lemma groupOf_absent (done : list Changelog.Commit) (type : string) :
  ~ In type (map typeOf done) -> groupOf done type = [].
Proof.
  unfold groupOf. induction done as [|c done IH]; simpl; intros Hno;
    [reflexivity |].
  destruct (String.eqb_spec (typeOf c) type) as [Heq | _]; [tauto |].
  apply IH. tauto.
Qed.

(** One turn of the loop takes the grouping of the commits seen so far to
    the grouping with the next commit. *)
Lemma addCommit_grouping (done : list Changelog.Commit) (c : Changelog.Commit) :
  plainType c ->
  Changelog.addCommit (grouping done) c = Ok (grouping (done ++ [c])).
Proof.
  intros Hplain. rewrite (addCommit_plain _ c Hplain). f_equal.
  fold (typeOf c). unfold grouping at 1 2.
  rewrite getOwn_map. unfold grouping.
  rewrite map_app. cbn [map]. rewrite firstSeen_snoc.
  destruct (existsb (String.eqb (typeOf c)) (firstSeen (map typeOf done)))
    eqn:Hseen.
  - rewrite set_map.
    + apply map_ext. intros type. rewrite groupOf_snoc.
      rewrite (String.eqb_sym type).
      destruct (String.eqb (typeOf c) type) eqn:Heq.
      * apply String.eqb_eq in Heq. now subst.
      * now rewrite app_nil_r.
    + apply firstSeen_NoDup.
    + now apply existsb_eqb_In.
  - assert (Hno : ~ In (typeOf c) (map typeOf done)).
    { intros Hin. apply (proj2 (firstSeen_In _ _)) in Hin.
      apply (proj2 (existsb_eqb_In _ _)) in Hin. congruence. }
    rewrite map_app. cbn [map]. f_equal.
    + apply map_ext_in. intros type Htype. rewrite groupOf_snoc.
      destruct (String.eqb_spec (typeOf c) type) as [<- | _].
      * apply (proj1 (firstSeen_In _ _)) in Htype. tauto.
      * now rewrite app_nil_r.
    + rewrite groupOf_snoc, (groupOf_absent done _ Hno), String.eqb_refl.
      reflexivity.
Qed.

Lemma forEach_addCommit_grouping (done commits : list Changelog.Commit) :
  Forall plainType commits ->
  forEachM Changelog.addCommit commits (grouping done)
  = Ok (grouping (done ++ commits)).
Proof.
  intros Hplain. revert done.
  induction Hplain as [|c commits Hc _ IH]; intros done; cbn [forEachM].
  - now rewrite app_nil_r.
  - rewrite (addCommit_grouping done c Hc). cbn [bind].
    rewrite IH. now rewrite <- app_assoc.
Qed.

Lemma forEachM_app {A S : Type} (body : S -> A -> Result S) (l1 l2 : list A)
  (s : S) :
  forEachM body (l1 ++ l2) s = (s' <- forEachM body l1 s ;; forEachM body l2 s').
Proof.
  revert s. induction l1 as [|x l1 IH]; intros s; cbn [forEachM app bind].
  - reflexivity.
  - destruct (body s x) as [s1 | msg]; cbn [bind]; [apply IH | reflexivity].
Qed.

(** The first commit of an inherited type, if there is one. *)
Lemma first_inherited (commits : list Changelog.Commit) :
  Forall plainType commits
  \/ exists before c after,
       commits = (before ++ c :: after)%list
       /\ Forall plainType before
       /\ inherited (typeOf c) = true.
Proof.
  induction commits as [|c commits [IH | (before & c' & after & -> & Hb & Hc)]].
  - left. constructor.
  - destruct (inherited (typeOf c)) eqn:Hc.
    + right. exists [], c, commits. repeat split; [constructor | exact Hc].
    + left. constructor; assumption.
  - destruct (inherited (typeOf c)) eqn:Hc0.
    + right. exists [], c, (before ++ c' :: after)%list.
      repeat split; [constructor | exact Hc0].
    + right. exists (c :: before), c', after.
      repeat split; [constructor; assumption | exact Hc].
Qed.

Lemma addCommit_inherited (done : list Changelog.Commit)
  (c : Changelog.Commit) :
  Forall plainType done -> inherited (typeOf c) = true ->
  Changelog.addCommit (grouping done) c
  = Throw "types[type].push is not a function".
Proof.
  intros Hdone Hc. unfold Changelog.addCommit. cbv zeta. fold (typeOf c).
  unfold get. unfold grouping at 1. rewrite getOwn_map.
  destruct (existsb (String.eqb (typeOf c)) (firstSeen (map typeOf done)))
    eqn:Hseen.
  - apply existsb_eqb_In, firstSeen_In, in_map_iff in Hseen
      as (c0 & Heq & Hin).
    rewrite Forall_forall in Hdone. specialize (Hdone c0 Hin).
    unfold plainType in Hdone. fold (typeOf c0) in Hdone. congruence.
  - rewrite Hc. unfold grouping. rewrite getOwn_map, Hseen. reflexivity.
Qed.

(** X1. [groupCommitsByType] either returns one group for each type, the
    types in the order of their first commit and the commits of a group in
    input order, or it throws, and it throws exactly when the leading word
    of some message is a property that every object inherits. *)
Theorem groupCommitsByType_result :
  forall commits : list Changelog.Commit,
    match Changelog.groupCommitsByType commits with
    | Ok types => types = grouping commits /\ Forall plainType commits
    | Throw msg =>
        msg = "types[type].push is not a function"
        /\ exists c, In c commits /\ inherited (typeOf c) = true
    end.
Proof.
  intros commits. unfold Changelog.groupCommitsByType.
  change (@nil (string * list Changelog.Commit)) with (grouping []).
  destruct (first_inherited commits)
    as [Hplain | (before & c & after & -> & Hb & Hc)].
  - rewrite (forEach_addCommit_grouping [] commits Hplain). now split.
  - rewrite forEachM_app, (forEach_addCommit_grouping [] before Hb).
    cbn [bind forEachM app]. rewrite (addCommit_inherited before c Hb Hc).
    cbn [bind]. split; [reflexivity |].
    exists c. split; [apply in_elt | exact Hc].
Qed.

Lemma keys_grouping (commits : list Changelog.Commit) :
  keys (grouping commits) = sectionOrder commits.
Proof.
  unfold keys, grouping, sectionOrder. rewrite map_map. cbn [fst].
  now rewrite map_id.
Qed.

Lemma ownGroup_grouping (commits : list Changelog.Commit) (type : string) :
  In type (map typeOf commits) ->
  Changelog.ownGroup (grouping commits) type = groupOf commits type.
Proof.
  intros Hin. unfold Changelog.ownGroup, get, grouping. rewrite getOwn_map.
  apply firstSeen_In, existsb_eqb_In in Hin. now rewrite Hin.
Qed.

Lemma sectionOrder_In (commits : list Changelog.Commit) (type : string) :
  In type (sectionOrder commits) -> In type (map typeOf commits).
Proof.
  unfold sectionOrder. rewrite in_app_iff. intros [Hin | Hin].
  - apply (Permutation_in _ (sortBy_perm _ _)) in Hin.
    apply filter_In in Hin as [Hin _]. now apply firstSeen_In.
  - apply filter_In in Hin as [Hin _]. now apply firstSeen_In.
Qed.

(** X3. The text of the internal layout. With types that are no inherited
    names and dates that the runtime reads, it is the header followed by
    one section for each type; the sections of types that read as array
    indices come first, by value, then the others in the order of their
    first commit, and a section lists the commits of its type in input
    order. *)
Theorem internal_layout_text :
  forall (toISOString : string -> Result string) (repoName dateRange : string)
         (commits : list Changelog.Commit),
    Forall plainType commits ->
    Forall (readableDate toISOString) commits ->
    Changelog.generateInternalChangelog toISOString repoName commits dateRange
    = Ok (internalHeader repoName dateRange
          ++ joined
               (map (fun type =>
                       internalSection toISOString (type, groupOf commits type))
                  (sectionOrder commits))).
Proof.
  intros toISOString repoName dateRange commits Hplain Hdates.
  unfold Changelog.generateInternalChangelog, Changelog.groupCommitsByType.
  change (@nil (string * list Changelog.Commit)) with (grouping []).
  rewrite (forEach_addCommit_grouping [] commits Hplain). cbn [bind app].
  rewrite keys_grouping, forEach_sections.
  - rewrite (map_ext_in
               (fun k => internalSection toISOString
                           (k, Changelog.ownGroup (grouping commits) k))
               (fun type => internalSection toISOString
                              (type, groupOf commits type))).
    + unfold internalHeader. now rewrite !append_assoc.
    + intros type Htype.
      now rewrite (ownGroup_grouping commits type (sectionOrder_In _ _ Htype)).
  - rewrite Forall_forall. intros type Htype.
    rewrite (ownGroup_grouping commits type (sectionOrder_In _ _ Htype)).
    rewrite Forall_forall in *. intros c Hc.
    apply Hdates. unfold groupOf in Hc. now apply filter_In in Hc.
Qed.

Lemma internal_layout_lists_every_commit_witness :
  exists sections,
    Changelog.generateInternalChangelog forgeTimestamp "repo"
      [revertLogin; addLogin] "d"
    = Ok (internalHeader "repo" "d"
          ++ joined (map (internalSection forgeTimestamp) sections))
    /\ groups sections [revertLogin; addLogin].
Proof.
  apply (internal_layout_lists_every_commit forgeTimestamp "repo" "d"
           [revertLogin; addLogin]).
  - repeat constructor.
  - repeat constructor; eexists; reflexivity.
Defined.

Lemma internal_layout_text_witness :
  Changelog.generateInternalChangelog forgeTimestamp "repo"
    [ revertLogin;
      mkCommit "1234567890" "12: twelve" "Ann" "2024-01-04T10:00:00Z";
      addLogin;
      mkCommit "0987654321" "7: seven" "Bob" "2024-01-05T10:00:00Z" ] "d"
  = Ok (internalHeader "repo" "d"
        ++ "## 7" ++ LF ++ LF
        ++ "- **0987654** 7: seven (Bob, 2024-01-05)" ++ LF ++ LF
        ++ "## 12" ++ LF ++ LF
        ++ "- **1234567** 12: twelve (Ann, 2024-01-04)" ++ LF ++ LF
        ++ "## Bug Fixes" ++ LF ++ LF
        ++ "- **fff0000** fix: Bob reverts abc1234 (Bob, 2024-01-03)" ++ LF ++ LF
        ++ "## Features" ++ LF ++ LF
        ++ "- **abc1234** feat: add login (Ann, 2024-01-02)" ++ LF ++ LF).
Proof.
  rewrite (internal_layout_text forgeTimestamp "repo" "d").
  - reflexivity.
  - repeat constructor.
  - repeat constructor; eexists; reflexivity.
Defined.

(** ** The fallbacks of [generateChangelog] *)

(** X4. When the language-model service gives no document, because it
    answers [null] or throws, the run returns the very document it returns
    when the service is not asked. *)
Theorem generateChangelog_falls_back :
  forall (w : Changelog.World) (repoUrl : string) (days : Z) (format : string),
    (forall commits repoName dateRange,
        Changelog.enhanceChangelog w commits format repoName dateRange = Ok None
        \/ exists msg,
             Changelog.enhanceChangelog w commits format repoName dateRange
             = Throw msg) ->
    Changelog.generateChangelog w repoUrl days format true
    = Changelog.generateChangelog w repoUrl days format false.
Proof.
  intros w repoUrl days format Hai. unfold Changelog.generateChangelog.
  destruct (Changelog.fetchCommits w repoUrl days) as [commits | msg];
    [| reflexivity].
  cbn [bind]. destruct (List.length commits =? 0)%nat; [reflexivity |].
  destruct (Changelog.dateRangeOf w days) as [dateRange | msg];
    [| reflexivity].
  cbn [bind].
  destruct (Hai commits
              (Changelog.removeFirst ".git" (Changelog.lastSegment repoUrl))
              dateRange) as [-> | [msg ->]]; reflexivity.
Qed.

Lemma generateChangelog_falls_back_witness :
  Changelog.generateChangelog (offline (Ok [addLogin]))
    "https://github.com/acme/widgets.git" 7 "external" true
  = Changelog.generateChangelog (offline (Ok [addLogin]))
      "https://github.com/acme/widgets.git" 7 "external" false.
Proof.
  apply (generateChangelog_falls_back (offline (Ok [addLogin]))
           "https://github.com/acme/widgets.git" 7 "external").
  intros commits repoName dateRange. left. reflexivity.
Defined.

Lemma filter_none {A : Type} (p : A -> bool) (l : list A) :
  Forall (fun x => p x = false) l -> filter p l = [].
Proof.
  induction 1 as [|x l Hx _ IH]; simpl; [reflexivity |]. now rewrite Hx.
Qed.

(** X5. When no message starts with one of the four keywords, the external
    layout is the header alone: no section and no other text. *)
Theorem external_layout_without_relevant_commits :
  forall (repoName : string) (commits : list Changelog.Commit)
         (dateRange : string),
    Forall (fun c => relevant c = false) commits ->
    Changelog.generateExternalChangelog repoName commits dateRange
    = "# " ++ repoName ++ " - Changelog" ++ LF ++ LF
      ++ "**" ++ dateRange ++ "**" ++ LF ++ LF.
Proof.
  intros repoName commits dateRange Hnone.
  rewrite generateExternalChangelog_layout. unfold externalLayout, bucket.
  assert (Hkw : forall kw, In kw ["feat"; "fix"; "perf"; "breaking"] ->
                           filter (Changelog.startsWithCI kw) commits = []).
  { intros kw Hkw. apply filter_none.
    eapply Forall_impl; [| exact Hnone].
    intros c Hc. unfold relevant in Hc.
    apply orb_false_iff in Hc as [Hc Hb].
    apply orb_false_iff in Hc as [Hc Hp].
    apply orb_false_iff in Hc as [Hf Hx].
    simpl in Hkw. destruct Hkw as [<- | [<- | [<- | [<- | []]]]]; assumption. }
  rewrite !Hkw by (simpl; tauto). unfold externalSection, externalHeader.
  now rewrite !append_empty_r.
Qed.

Lemma external_layout_without_relevant_commits_witness :
  Changelog.generateExternalChangelog "repo"
    [ mkCommit "1234567" "docs: describe login" "Ann" "2024-01-02T10:00:00Z";
      mkCommit "7654321" "chore: bump version" "Bob" "2024-01-03T10:00:00Z" ]
    "2024-01-01 - 2024-01-08"
  = "# repo - Changelog" ++ LF ++ LF ++ "**2024-01-01 - 2024-01-08**" ++ LF ++ LF.
Proof.
  apply (external_layout_without_relevant_commits "repo").
  repeat constructor.
Defined.

(** ** Repository URLs *)

Lemma allOf_append (p : ascii -> bool) (s1 s2 : string) :
  allOf p (s1 ++ s2) <-> allOf p s1 /\ allOf p s2.
Proof.
  unfold allOf. rewrite chars_append, forallb_app. apply andb_true_iff.
Qed.

Lemma startsWith_iff (s p : string) :
  startsWith s p = true <-> exists r, s = p ++ r.
Proof.
  revert s. induction p as [|a p IH]; intros s; simpl.
  - split; [intros _; now exists s | intros _; now destruct s].
  - destruct s as [|b s].
    + split; [discriminate | intros [r Hr]; discriminate].
    + cbn [startsWith]. rewrite andb_true_iff, IH. split.
      * intros [Hab [r ->]]. apply Ascii.eqb_eq in Hab. subst. now exists r.
      * intros [r Hr]. injection Hr as -> ->.
        split; [apply Ascii.eqb_refl | now exists r].
Qed.

Lemma lastSegmentFrom_noSlash (acc x : string) :
  noSlash x -> Changelog.lastSegmentFrom acc x = acc ++ x.
Proof.
  unfold noSlash, allOf. revert acc.
  induction x as [|c x IH]; intros acc Hx; simpl in *.
  - now rewrite append_empty_r.
  - apply andb_true_iff in Hx as [Hc Hx]. apply negb_true_iff in Hc.
    rewrite Hc, (IH _ Hx), append_assoc. reflexivity.
Qed.

Lemma lastSegment_after_slash (base x : string) :
  noSlash x -> Changelog.lastSegment (base ++ "/" ++ x) = x.
Proof.
  intros Hx. unfold Changelog.lastSegment.
  assert (Hgen : forall acc,
             Changelog.lastSegmentFrom acc (base ++ "/" ++ x)
             = Changelog.lastSegmentFrom "" x).
  { induction base as [|c base IH]; intros acc; simpl.
    - reflexivity.
    - destruct (c =? "/")%char; apply IH. }
  rewrite Hgen. now apply lastSegmentFrom_noSlash.
Qed.

Lemma removeFirst_cons (pat : string) (c : ascii) (s : string) :
  Changelog.removeFirst pat (String c s)
  = if startsWith (String c s) pat
    then drop (String.length pat) (String c s)
    else String c (Changelog.removeFirst pat s).
Proof. reflexivity. Qed.

(** No occurrence of [.git] begins inside [x] and ends after it. *)
Lemma git_no_overlap (x b : string) :
  x <> "" -> startsWith (x ++ ".git" ++ b) ".git" = true ->
  startsWith x ".git" = true.
Proof.
  intros Hne H. apply startsWith_iff in H as [r Hr].
  apply startsWith_iff.
  destruct x as [|c1 [|c2 [|c3 [|c4 x]]]]; simpl in Hr;
    try congruence; try discriminate Hr.
  injection Hr as -> -> -> -> _. now exists x.
Qed.

Lemma removeFirst_git (a b : string) :
  includes a ".git" = false ->
  Changelog.removeFirst ".git" (a ++ ".git" ++ b) = a ++ b.
Proof.
  induction a as [|c a IH]; intros Hno.
  - now destruct b.
  - cbn [includes] in Hno. apply orb_false_iff in Hno as [Hhere Hlater].
    change (String c a ++ ".git" ++ b) with (String c (a ++ ".git" ++ b)).
    rewrite removeFirst_cons.
    destruct (startsWith (String c (a ++ ".git" ++ b)) ".git") eqn:Hs.
    + apply (git_no_overlap (String c a) b) in Hs; [congruence | discriminate].
    + rewrite (IH Hlater). reflexivity.
Qed.

(** X6. The repository name is the last segment of the URL without its first
    [.git], wherever that stands: a trailing [.git] goes, and so does the
    one inside a name such as [user.github.io]. *)
Theorem getRepoNameFromUrl_removes_first_git :
  forall base a b : string,
    noSlash a -> noSlash b -> includes a ".git" = false ->
    RepoUrl.getRepoNameFromUrl (base ++ "/" ++ a ++ ".git" ++ b) = a ++ b.
Proof.
  intros base a b Ha Hb Hno. unfold RepoUrl.getRepoNameFromUrl.
  rewrite lastSegment_after_slash.
  - now apply removeFirst_git.
  - apply allOf_append. split; [exact Ha |].
    apply allOf_append. split; [reflexivity | exact Hb].
Qed.

Lemma getRepoNameFromUrl_removes_first_git_witness :
  RepoUrl.getRepoNameFromUrl "https://github.com/acme/widgets.git" = "widgets"
  /\ RepoUrl.getRepoNameFromUrl "https://github.com/user/user.github.io"
     = "userhub.io".
Proof.
  split.
  - apply (getRepoNameFromUrl_removes_first_git "https://github.com/acme"
             "widgets" ""); reflexivity.
  - apply (getRepoNameFromUrl_removes_first_git "https://github.com/user"
             "user" "hub.io"); reflexivity.
Defined.

Lemma split_nonempty (sep : ascii) (s : string) : RepoUrl.split sep s <> [].
Proof.
  destruct s as [|c s]; simpl; [discriminate |].
  destruct (c =? sep)%char; [discriminate |].
  destruct (RepoUrl.split sep s); discriminate.
Qed.

Lemma split_without_separator (s : string) :
  noSlash s -> RepoUrl.split "/" s = [s].
Proof.
  unfold noSlash, allOf. induction s as [|c s IH]; simpl; intros Hs.
  - reflexivity.
  - apply andb_true_iff in Hs as [Hc Hs]. apply negb_true_iff in Hc.
    rewrite Hc, (IH Hs). reflexivity.
Qed.

Lemma split_append (a b : string) :
  RepoUrl.split "/" (a ++ "/" ++ b)
  = (RepoUrl.split "/" a ++ RepoUrl.split "/" b)%list.
Proof.
  induction a as [|c a IH].
  - reflexivity.
  - change (String c a ++ "/" ++ b) with (String c (a ++ "/" ++ b)).
    cbn [RepoUrl.split]. rewrite IH.
    destruct (c =? "/")%char; [reflexivity |].
    pose proof (split_nonempty "/" a) as Hne.
    destruct (RepoUrl.split "/" a) as [|part parts]; [congruence | reflexivity].
Qed.

Lemma dropSuffix_cons (suffix : string) (c : ascii) (s : string) :
  RepoUrl.dropSuffix suffix (String c s)
  = if String.eqb (String c s) suffix then ""
    else String c (RepoUrl.dropSuffix suffix s).
Proof. reflexivity. Qed.

Lemma length_append (s1 s2 : string) :
  String.length (s1 ++ s2) = (String.length s1 + String.length s2)%nat.
Proof.
  induction s1 as [|c s1 IH]; simpl; [reflexivity | now rewrite IH].
Qed.

Lemma dropSuffix_append (suffix x : string) :
  RepoUrl.dropSuffix suffix (x ++ suffix) = x.
Proof.
  induction x as [|c x IH].
  - destruct suffix; simpl; [reflexivity |].
    now rewrite Ascii.eqb_refl, String.eqb_refl.
  - change (String c x ++ suffix) with (String c (x ++ suffix)).
    rewrite dropSuffix_cons.
    destruct (String.eqb_spec (String c (x ++ suffix)) suffix) as [Heq | _].
    + apply (f_equal String.length) in Heq. simpl in Heq.
      rewrite length_append in Heq. lia.
    + now rewrite IH.
Qed.

Lemma dropSuffix_prefix (suffix s : string) :
  exists r, s = RepoUrl.dropSuffix suffix s ++ r.
Proof.
  induction s as [|c s [r IH]].
  - exists "". now destruct suffix.
  - rewrite dropSuffix_cons.
    destruct (String.eqb (String c s) suffix).
    + now exists (String c s).
    + exists r. simpl. now rewrite <- IH.
Qed.

Lemma fromEnd_two (parts : list string) (owner repo : string) :
  RepoUrl.fromEnd 2 (parts ++ [owner; repo]) = owner
  /\ RepoUrl.fromEnd 1 (parts ++ [owner; repo]) = repo.
Proof.
  unfold RepoUrl.fromEnd. rewrite length_app. cbn [List.length].
  replace (2 <=? List.length parts + 2)%nat with true
    by (symmetry; apply Nat.leb_le; lia).
  replace (1 <=? List.length parts + 2)%nat with true
    by (symmetry; apply Nat.leb_le; lia).
  split.
  - rewrite app_nth2 by lia.
    now replace (List.length parts + 2 - 2 - List.length parts)%nat
      with 0%nat by lia.
  - rewrite app_nth2 by lia.
    now replace (List.length parts + 2 - 1 - List.length parts)%nat
      with 1%nat by lia.
Qed.

(** X7. The address of the forge's commit list. For a URL that ends in
    [/owner/repo.git] it names that owner and that repository; a URL
    without any slash gives the owner [undefined]. *)
Theorem apiUrl_owner_and_repository :
  (forall base owner repo : string,
      noSlash owner -> noSlash repo ->
      RepoUrl.apiUrl (base ++ "/" ++ owner ++ "/" ++ repo ++ ".git")
      = "https://api.github.com/repos/" ++ owner ++ "/" ++ repo ++ "/commits")
  /\ (forall s : string,
         noSlash s ->
         RepoUrl.apiUrl s
         = "https://api.github.com/repos/undefined/"
           ++ RepoUrl.dropSuffix ".git" s ++ "/commits").
Proof.
  split.
  - intros base owner repo Ho Hr. unfold RepoUrl.apiUrl.
    replace (base ++ "/" ++ owner ++ "/" ++ repo ++ ".git")
      with ((base ++ "/" ++ owner ++ "/" ++ repo) ++ ".git")
      by (now rewrite !append_assoc).
    rewrite dropSuffix_append, split_append, split_append.
    rewrite (split_without_separator owner Ho),
            (split_without_separator repo Hr).
    cbn [app]. destruct (fromEnd_two (RepoUrl.split "/" base) owner repo)
      as [-> ->].
    reflexivity.
  - intros s Hs. unfold RepoUrl.apiUrl.
    destruct (dropSuffix_prefix ".git" s) as [r Hr].
    rewrite Hr in Hs. apply allOf_append in Hs as [Hs _].
    rewrite (split_without_separator _ Hs). reflexivity.
Qed.

Lemma apiUrl_owner_and_repository_witness :
  RepoUrl.apiUrl "https://github.com/acme/widgets.git"
  = "https://api.github.com/repos/acme/widgets/commits"
  /\ RepoUrl.apiUrl "widgets.git"
     = "https://api.github.com/repos/undefined/widgets/commits".
Proof.
  split.
  - apply (proj1 apiUrl_owner_and_repository "https://github.com"
             "acme" "widgets"); reflexivity.
  - apply (proj2 apiUrl_owner_and_repository "widgets.git"). reflexivity.
Defined.

(** ** Listings of the store *)

Lemma sorted_app_cross {A : Type} (R : A -> A -> Prop) (l1 l2 : list A) :
  StronglySorted R (l1 ++ l2) -> Forall (fun a => Forall (R a) l2) l1.
Proof.
  induction l1 as [|a l1 IH]; simpl; intros Hs; [constructor |].
  inversion Hs as [|? ? Hrest Ha]; subst.
  constructor; [| now apply IH].
  now apply Forall_app in Ha as [_ Ha].
Qed.

(** The first [limit] elements of a sorted copy of a list: nothing left out
    stands before anything taken. *)
Lemma top_of_sorted {A : Type} (le : A -> A -> bool) (R : A -> A -> Prop)
  (limit : nat) (l : list A) :
  StronglySorted R (sortBy le l) ->
  exists rest,
    Permutation (firstn limit (sortBy le l) ++ rest) l
    /\ List.length (firstn limit (sortBy le l)) = Nat.min limit (List.length l)
    /\ StronglySorted R (firstn limit (sortBy le l))
    /\ Forall (fun a => Forall (R a) rest) (firstn limit (sortBy le l)).
Proof.
  intros Hs. exists (skipn limit (sortBy le l)). repeat split.
  - rewrite firstn_skipn. apply sortBy_perm.
  - rewrite length_firstn. f_equal.
    apply Permutation_length, sortBy_perm.
  - now apply firstn_sorted.
  - apply sorted_app_cross. now rewrite firstn_skipn.
Qed.

(** X8. [getRecentRepositories] returns [limit] records, or all of them when
    there are fewer, newest first, and no record it leaves out was used
    later than one it returns. *)
Theorem getRecentRepositories_most_recent :
  forall (limit : nat) (db : Store.DB),
    exists rest,
      Permutation (Store.getRecentRepositories limit db ++ rest)
        (Store.repositories db)
      /\ List.length (Store.getRecentRepositories limit db)
         = Nat.min limit (List.length (Store.repositories db))
      /\ newestFirst (Store.getRecentRepositories limit db)
      /\ Forall
           (fun r =>
              Forall (fun older => (Store.lastUsed older <= Store.lastUsed r)%Z)
                rest)
           (Store.getRecentRepositories limit db).
Proof.
  intros limit db. unfold Store.getRecentRepositories, sortWith.
  apply (top_of_sorted _
           (fun a b => (Store.lastUsed b <= Store.lastUsed a)%Z)).
  apply sortWith_byLastUsed_sorted.
Qed.

(** X9. [getChangelogHistory] returns entries of the URL only, [limit] of
    them or all when there are fewer, newest first, and no entry of the URL
    it leaves out was generated later than one it returns. *)
Theorem getChangelogHistory_most_recent :
  forall (repoUrl' : string) (limit : nat) (db : Store.DB),
    exists rest,
      Permutation (Store.getChangelogHistory repoUrl' limit db ++ rest)
        (filter (fun e => String.eqb (Store.repoUrl e) repoUrl')
           (Store.history db))
      /\ List.length (Store.getChangelogHistory repoUrl' limit db)
         = Nat.min limit
             (List.length
                (filter (fun e => String.eqb (Store.repoUrl e) repoUrl')
                   (Store.history db)))
      /\ newestEntryFirst (Store.getChangelogHistory repoUrl' limit db)
      /\ Forall
           (fun e =>
              Forall
                (fun older =>
                   (Store.generatedAt older <= Store.generatedAt e)%Z)
                rest)
           (Store.getChangelogHistory repoUrl' limit db).
Proof.
  intros u limit db. unfold Store.getChangelogHistory, sortWith.
  apply (top_of_sorted _
           (fun a b => (Store.generatedAt b <= Store.generatedAt a)%Z)).
  apply sortWith_byGeneratedAt_sorted.
Qed.

(** ** The store after calls *)

Lemma firstCallName_snoc (u : string) (calls : list Call) (c : Call) :
  firstCallName u (calls ++ [c])
  = match firstCallName u calls with
    | Some n => Some n
    | None => if String.eqb (callUrl c) u then Some (callName c) else None
    end.
Proof.
  induction calls as [|c0 calls IH]; simpl; [reflexivity |].
  destruct (String.eqb (callUrl c0) u); [reflexivity | exact IH].
Qed.

Lemma firstCallName_None (u : string) (calls : list Call) :
  ~ In u (map callUrl calls) -> firstCallName u calls = None.
Proof.
  induction calls as [|c calls IH]; simpl; intros Hno; [reflexivity |].
  destruct (String.eqb_spec (callUrl c) u) as [Heq | _]; [tauto |].
  apply IH. tauto.
Qed.

Lemma perform_saves (db : Store.DB) (c : Call) :
  Store.repositories (perform db c)
  = Store.repositories
      (Store.saveRepository (callTime c) (callUrl c) (callName c) db).
Proof. destruct c; reflexivity. Qed.

(** Every record keeps the name of the first call for its URL. *)
Lemma run_names (calls : list Call) :
  Forall
    (fun r => firstCallName (Store.url r) calls = Some (Store.name r))
    (Store.repositories (run calls)).
Proof.
  induction calls as [|c calls IH] using rev_ind; [constructor |].
  rewrite run_snoc, perform_saves.
  assert (Hkeep : forall r,
             firstCallName (Store.url r) calls = Some (Store.name r) ->
             firstCallName (Store.url r) (calls ++ [c]) = Some (Store.name r)).
  { intros r Hr. now rewrite firstCallName_snoc, Hr. }
  destruct (saveRepository_repositories (callTime c) (callUrl c) (callName c)
              (run calls))
    as [(before & r & after & Hl & Hr & Hb & ->) | [Hnone ->]];
    (eapply Permutation_Forall; [symmetry; apply sortBy_perm |]).
  - rewrite Hl in IH. apply Forall_app in IH as [IH1 IH2].
    inversion IH2 as [|? ? Hr0 IH3]; subst.
    apply Forall_app. split; [| constructor].
    + eapply Forall_impl; [| exact IH1]. exact Hkeep.
    + apply (Hkeep r Hr0).
    + eapply Forall_impl; [| exact IH3]. exact Hkeep.
  - apply Forall_app. split.
    + eapply Forall_impl; [| exact IH]. exact Hkeep.
    + constructor; [| constructor]. cbn [Store.url Store.name].
      rewrite firstCallName_snoc, String.eqb_refl.
      rewrite firstCallName_None; [reflexivity |].
      destruct (run_tableOf calls) as (_ & Hin & _).
      intros Hu. apply Hin, in_map_iff in Hu as (x & Hx & Hxin).
      rewrite Forall_forall in Hnone. now apply (Hnone x).
Qed.

(** X10. After any calls on the empty store, [getRepository] finds a record
    exactly for the URLs that were passed; the record has the time of the
    last call for the URL and the name of the first one: a later call with
    another name does not rename the repository. *)
Theorem getRepository_after_calls :
  forall (calls : list Call) (u : string),
    match Store.getRepository u (run calls) with
    | Some r =>
        Store.url r = u
        /\ lastCallTime u calls = Some (Store.lastUsed r)
        /\ firstCallName u calls = Some (Store.name r)
    | None => ~ In u (map callUrl calls)
    end.
Proof.
  intros calls u. unfold Store.getRepository.
  destruct (run_tableOf calls) as (_ & Hin & Htimes).
  pose proof (run_names calls) as Hnames.
  destruct (find _ (Store.repositories (run calls))) as [r|] eqn:Hfind.
  - apply find_some in Hfind as [Hr Hu]. apply String.eqb_eq in Hu.
    rewrite Forall_forall in Htimes, Hnames.
    specialize (Htimes r Hr). specialize (Hnames r Hr).
    rewrite Hu in Htimes, Hnames. now repeat split.
  - intros Hu. apply Hin, in_map_iff in Hu as (x & Hx & Hxin).
    apply (find_none _ _ Hfind) in Hxin.
    apply String.eqb_neq in Hxin. contradiction.
Qed.

Lemma sortWith_entries_perm (entries : list Store.HistoryEntry) :
  Permutation (sortWith Store.byGeneratedAt entries) entries.
Proof. apply sortBy_perm. Qed.

(** X11. The history is a log. After any calls on the empty store it holds
    exactly the entries that the [saveChangelogGeneration] calls appended,
    none changed and none dropped, newest first. *)
Theorem history_after_calls :
  forall calls : list Call,
    Permutation (Store.history (run calls)) (recorded calls)
    /\ newestEntryFirst (Store.history (run calls)).
Proof.
  induction calls as [|c calls [IHp IHs]] using rev_ind.
  - split; constructor.
  - rewrite run_snoc. unfold recorded in *. rewrite flat_map_app.
    destruct c as [now u n | t1 t2 u n s e h]; cbn [perform flat_map].
    + rewrite !app_nil_r. now split.
    + unfold Store.saveChangelogGeneration.
      cbn [Store.history Store.saveRepository]. split.
      * rewrite sortWith_entries_perm, app_nil_r.
        now apply Permutation_app_tail.
      * apply sortWith_byGeneratedAt_sorted.
Qed.

(** ** Recording a run and looking it up *)

(** X12. After [saveChangelogGeneration] for a URL, at a time later than the
    URL's earlier entries, [getDaysSinceLastChangelog] answers with that
    run: its end date, its hash ([null] for an empty one) and the days
    counted from its time. *)
Theorem saveChangelogGeneration_then_lookup :
  forall (t1 t2 : Z) (u n s e : string) (h : option string) (db : Store.DB)
         (now : Z),
    (forall x, In x (Store.history db) -> Store.repoUrl x = u ->
               (Store.generatedAt x < t2)%Z) ->
    Store.getDaysSinceLastChangelog now u
      (Store.saveChangelogGeneration t1 t2 u n s e h db)
    = Some {| Store.days := Store.ceilDiv (now - t2) Store.msPerDay;
              Store.lastDate := e;
              Store.lastHash := Store.orNull h |}.
Proof.
  intros t1 t2 u n s e h db now Hearlier.
  unfold Store.getDaysSinceLastChangelog, Store.saveChangelogGeneration.
  cbn [Store.history Store.saveRepository].
  set (new := {| Store.repoUrl := u; Store.generatedAt := t2;
                 Store.startDate := s; Store.endDate := e;
                 Store.lastCommitHash := Store.orNull h |}).
  set (mine := filter (fun entry => String.eqb (Store.repoUrl entry) u)
                 (sortWith Store.byGeneratedAt (Store.history db ++ [new]))).
  assert (Hnew : In new mine).
  { apply filter_In. split; [| apply String.eqb_refl].
    apply (Permutation_in _ (Permutation_sym (sortWith_entries_perm _))).
    apply in_or_app. right. now left. }
  destruct (sortWith Store.byGeneratedAt mine) as [|e0 rest] eqn:Hs.
  - pose proof (sortWith_entries_perm mine) as Hperm. rewrite Hs in Hperm.
    apply Permutation_nil in Hperm. rewrite Hperm in Hnew. destruct Hnew.
  - destruct (sorted_head_max mine e0 rest Hs) as [Hin Hmax].
    specialize (Hmax new Hnew). cbn [Store.generatedAt new] in Hmax.
    apply filter_In in Hin as [Hin Hu]. apply String.eqb_eq in Hu.
    apply (Permutation_in _ (sortWith_entries_perm _)) in Hin.
    apply in_app_or in Hin as [Hold | [<- | []]].
    + specialize (Hearlier e0 Hold Hu). lia.
    + reflexivity.
Qed.

Lemma saveChangelogGeneration_then_lookup_witness :
  Store.getDaysSinceLastChangelog (5000 + 86400000)
    "https://github.com/acme/widgets"
    (Store.saveChangelogGeneration 5000 5001 "https://github.com/acme/widgets"
       "widgets" "2024-01-08" "2024-01-15" (Some "") sample)
  = Some {| Store.days := Store.ceilDiv (5000 + 86400000 - 5001) Store.msPerDay;
            Store.lastDate := "2024-01-15";
            Store.lastHash := None |}.
Proof.
  apply (saveChangelogGeneration_then_lookup 5000 5001
           "https://github.com/acme/widgets" "widgets" "2024-01-08"
           "2024-01-15" (Some "") sample (5000 + 86400000)).
  intros x [<- | []] _. reflexivity.
Defined.

(** ** New commits: bounds, and what [run] records *)

Lemma findIndex_bound {A : Type} (p : A -> bool) (l : list A) (i : nat) :
  findIndex p l = Some i -> (i < List.length l)%nat.
Proof.
  intros H.
  destruct (findIndex_Some p (fun x => x) l i H)
    as (before & x & after & -> & <- & _).
  rewrite length_app. simpl. lia.
Qed.

(** X13. A count of new commits is only given for a page that was fetched,
    and it is never more than the number of commits on the page. *)
Theorem newCommits_at_most_page :
  forall (now : Z) (repoUrl' : string) (db : Store.DB)
         (response : Result (list Changelog.Commit)) (n : nat),
    Store.newCommits
      (Store.getNewCommitsSinceLastChangelog now repoUrl' db response)
    = Some n ->
    exists page, response = Ok page /\ (n <= List.length page)%nat.
Proof.
  intros now u db response n. unfold Store.getNewCommitsSinceLastChangelog.
  destruct (Store.getDaysSinceLastChangelog now u db) as [lastRun|];
    [| discriminate].
  destruct (Store.lastHash lastRun) as [[|a hash]|]; try discriminate.
  destruct response as [[|first rest] | msg]; try discriminate.
  - intros [= <-]. exists []. split; [reflexivity | simpl; lia].
  - destruct (findIndex _ (first :: rest)) as [i|] eqn:Hfind.
    + intros [= <-]. exists (first :: rest). split; [reflexivity |].
      apply findIndex_bound in Hfind. lia.
    + intros [= <-]. exists (first :: rest). split; [reflexivity |].
      apply Nat.le_refl.
Qed.

Lemma newCommits_at_most_page_witness :
  exists fetched,
    Ok page = Ok fetched /\ (1 <= List.length fetched)%nat.
Proof.
  apply (newCommits_at_most_page 5000 "https://github.com/acme/widgets"
           sample (Ok page) 1).
  reflexivity.
Defined.

Lemma lookup_hash_in_history (now : Z) (u : string) (db : Store.DB)
  (lastRun : Store.LastRun) :
  Store.getDaysSinceLastChangelog now u db = Some lastRun ->
  exists e, In e (Store.history db)
            /\ Store.lastHash lastRun = Store.lastCommitHash e.
Proof.
  unfold Store.getDaysSinceLastChangelog.
  destruct (sortWith Store.byGeneratedAt _) as [|e rest] eqn:Hs;
    [discriminate |].
  intros [= <-]. exists e. split; [| reflexivity].
  destruct (sorted_head_max _ e rest Hs) as [Hin _].
  now apply filter_In in Hin as [Hin _].
Qed.

Lemma unknown_without_hashes (now : Z) (u : string) (db : Store.DB)
  (response : Result (list Changelog.Commit)) :
  Forall (fun e => Store.lastCommitHash e = None) (Store.history db) ->
  Store.getNewCommitsSinceLastChangelog now u db response
  = {| Store.newCommits := None; Store.newestHash := None;
       Store.message := Store.noPreviousHash |}.
Proof.
  intros Hnone. unfold Store.getNewCommitsSinceLastChangelog.
  destruct (Store.getDaysSinceLastChangelog now u db) as [lastRun|] eqn:Hrun;
    [| reflexivity].
  destruct (lookup_hash_in_history now u db lastRun Hrun) as (e & Hin & ->).
  rewrite Forall_forall in Hnone. now rewrite (Hnone e Hin).
Qed.

Lemma run_keeps_no_hash (p : Cli.Pass) (db : Store.DB) :
  Forall (fun e => Store.lastCommitHash e = None) (Store.history db) ->
  Forall (fun e => Store.lastCommitHash e = None)
    (Store.history (Cli.run p db)).
Proof.
  intros Hnone. unfold Cli.run. destruct (Cli.completed p); [| exact Hnone].
  unfold Store.saveChangelogGeneration.
  cbn [Store.history Store.saveRepository].
  eapply Permutation_Forall; [symmetry; apply sortWith_entries_perm |].
  apply Forall_app. split; [exact Hnone |].
  constructor; [| constructor]. cbn [Store.lastCommitHash].
  unfold Cli.checkHistory.
  destruct (Store.getDaysSinceLastChangelog (Cli.now p) (Cli.repoUrl p) db);
    [| reflexivity].
  cbn [snd]. now rewrite (unknown_without_hashes _ _ db _ Hnone).
Qed.

(** X14. [run] never records a commit hash. The hash it saves is the one
    that [getNewCommitsSinceLastChangelog] returns, and that is [null]
    unless an earlier entry already has one; so after any passes on the
    empty store every entry has the hash [null], and the count of new
    commits is unknown for every repository and every page. *)
Theorem run_never_records_a_hash :
  forall passes : list Cli.Pass,
    Forall (fun e => Store.lastCommitHash e = None)
      (Store.history (afterPasses passes))
    /\ forall (now : Z) (u : string)
              (response : Result (list Changelog.Commit)),
         Store.getNewCommitsSinceLastChangelog now u (afterPasses passes)
           response
         = {| Store.newCommits := None; Store.newestHash := None;
              Store.message := Store.noPreviousHash |}.
Proof.
  intros passes.
  assert (Hnone : Forall (fun e => Store.lastCommitHash e = None)
                    (Store.history (afterPasses passes))).
  { unfold afterPasses.
    induction passes as [|p passes IH] using rev_ind; [constructor |].
    rewrite fold_left_app. cbn [fold_left]. now apply run_keeps_no_hash. }
  split; [exact Hnone |].
  intros now u response. now apply unknown_without_hashes.
Qed.

(** ** The initialization pass and a valid store *)

Lemma isArray_truthy (v : option Setup.Value) :
  Setup.isArray v = true -> Setup.truthy v = true.
Proof. destruct v as [[]|]; simpl; congruence. Qed.

(** X16. The initialization pass changes nothing when run again, and it
    leaves alone a file whose document is an object with both arrays,
    whatever else the object holds. *)
Theorem setup_keeps_a_valid_store :
  (forall (write : Setup.Write) (file : Setup.File),
      Setup.setup write (Setup.setup write file) = Setup.setup write file)
  /\ (forall (write : Setup.Write) (members : Obj Setup.Value),
         Setup.isArray (getOwn members "repositories") = true ->
         Setup.isArray (getOwn members "history") = true ->
         Setup.setup write (Setup.Json (Setup.VObject members))
         = Setup.Json (Setup.VObject members)).
Proof.
  split.
  - intros write [| | | v]; try (now destruct write).
    destruct v as [| b | literal | s | items named | members];
      try (now destruct write);
      unfold Setup.setup at 2; cbn [Setup.getProp bind];
      destruct (_ || _ || _ || _) eqn:Hneeds;
      destruct write; unfold Setup.setup; cbn [Setup.getProp bind];
      rewrite ?Hneeds; reflexivity.
  - intros write members Hr Hh. unfold Setup.setup. cbn [Setup.getProp bind].
    now rewrite Hr, Hh, (isArray_truthy _ Hr), (isArray_truthy _ Hh).
Qed.

Lemma setup_keeps_a_valid_store_witness :
  Setup.setup Setup.Lands
    (Setup.Json
       (Setup.VObject
          [("version", Setup.VNumber "2");
           ("history", Setup.VArray [Setup.VString "entry"] []);
           ("repositories", Setup.VArray [] [])]))
  = Setup.Json
      (Setup.VObject
         [("version", Setup.VNumber "2");
          ("history", Setup.VArray [Setup.VString "entry"] []);
          ("repositories", Setup.VArray [] [])]).
Proof.
  apply (proj2 setup_keeps_a_valid_store Setup.Lands); reflexivity.
Defined.

(** X17. The read path returns a valid store as it is: when the document is
    an object whose [repositories] and [history] are arrays, nothing is
    reset and no member is lost. *)
Theorem readDB_returns_a_valid_store :
  forall members : Obj Setup.Value,
    Setup.isArray (getOwn members "repositories") = true ->
    Setup.isArray (getOwn members "history") = true ->
    Setup.readDB (Setup.Json (Setup.VObject members)) = Setup.VObject members.
Proof.
  intros members Hr Hh. unfold Setup.readDB, Setup.ensureArray.
  cbn [Setup.getProp bind].
  rewrite Hr, (isArray_truthy _ Hr). cbn [negb orb Setup.getProp bind].
  now rewrite Hh, (isArray_truthy _ Hh).
Qed.

Lemma readDB_returns_a_valid_store_witness :
  Setup.readDB
    (Setup.Json
       (Setup.VObject
          [("version", Setup.VNumber "2");
           ("history", Setup.VArray [Setup.VString "entry"] []);
           ("repositories", Setup.VArray [] [])]))
  = Setup.VObject
      [("version", Setup.VNumber "2");
       ("history", Setup.VArray [Setup.VString "entry"] []);
       ("repositories", Setup.VArray [] [])].
Proof.
  apply readDB_returns_a_valid_store; reflexivity.
Defined.

(** ** The title of a generated document *)

Lemma startsWith_empty (s : string) : startsWith s "" = true.
Proof. now destruct s. Qed.

Lemma split_first_line (line rest : string) :
  noLF line ->
  RepoUrl.split "010" (line ++ String "010" rest)
  = line :: RepoUrl.split "010" rest.
Proof.
  unfold noLF, allOf. induction line as [|c line IH]; intros Hline.
  - reflexivity.
  - cbn [chars forallb] in Hline.
    apply andb_true_iff in Hline as [Hc Hline]. apply negb_true_iff in Hc.
    change (String c line ++ String "010" rest)
      with (String c (line ++ String "010" rest)).
    cbn [RepoUrl.split]. now rewrite Hc, (IH Hline).
Qed.

Lemma split_unlines (before : list string) (s : string) :
  Forall noLF before ->
  RepoUrl.split "010" (unlines before ++ s)
  = (before ++ RepoUrl.split "010" s)%list.
Proof.
  induction 1 as [|line before Hline _ IH]; [reflexivity |].
  cbn [unlines app]. rewrite !append_assoc.
  change (LF ++ unlines before ++ s) with (String "010" (unlines before ++ s)).
  now rewrite (split_first_line line _ Hline), IH.
Qed.

Lemma find_app_none {A : Type} (p : A -> bool) (l1 l2 : list A) :
  Forall (fun x => p x = false) l1 -> find p (l1 ++ l2) = find p l2.
Proof.
  induction 1 as [|x l1 Hx _ IH]; simpl; [reflexivity |]. now rewrite Hx.
Qed.

(** Text that ends in an ASCII character other than white space has no
    white space to lose at its end. *)
Lemma trimEnd_ends (x : string) (c : ascii) :
  space1 c = false -> (code c <? 128)%N = true ->
  Summarizer.trimEnd (x ++ String c "") = x ++ String c "".
Proof.
  intros Hc Hlow.
  assert (Hkeep : forall y, String.eqb (skipSpace (y ++ String c "")) "" = false).
  { intros y. apply String.eqb_neq. now apply skipSpace_keeps_last. }
  induction x as [|a x IH].
  - pose proof (Hkeep "") as Hlast. cbn [append] in Hlast.
    cbn [append Summarizer.trimEnd]. now rewrite Hlast.
  - change (String a x ++ String c "") with (String a (x ++ String c "")).
    cbn [Summarizer.trimEnd].
    change (String a (x ++ String c "")) with (String a x ++ String c "").
    now rewrite (Hkeep (String a x)), IH.
Qed.

(** The first line starts as the text does, for a pattern within a line. *)
Lemma first_line_startsWith (s p : string) :
  noLF p ->
  startsWith (hd "" (RepoUrl.split "010" s)) p = startsWith s p.
Proof.
  unfold noLF, allOf. revert s. induction p as [|a p IH]; intros s Hp.
  - now rewrite !startsWith_empty.
  - cbn [chars forallb] in Hp. apply andb_true_iff in Hp as [Ha Hp].
    apply negb_true_iff in Ha.
    destruct s as [|c s]; [reflexivity |].
    cbn [RepoUrl.split]. destruct (Ascii.eqb_spec c "010") as [-> | Hc].
    + cbn [hd startsWith]. now rewrite Ha.
    + pose proof (split_nonempty "010" s) as Hne.
      specialize (IH s Hp).
      destruct (RepoUrl.split "010" s) as [|part parts]; [congruence |].
      cbn [hd startsWith] in *. now rewrite IH.
Qed.

Lemma later_lines_startsWith (s p : string) :
  noLF p ->
  includes s (String "010" p) = false ->
  find (fun line => startsWith line p) (tl (RepoUrl.split "010" s)) = None.
Proof.
  intros Hp. induction s as [|c s IH]; intros Hno; [reflexivity |].
  cbn [includes] in Hno. apply orb_false_iff in Hno as [Hhere Hlater].
  cbn [RepoUrl.split]. destruct (Ascii.eqb_spec c "010") as [-> | Hc].
  - cbn [tl]. cbn [startsWith] in Hhere. rewrite Ascii.eqb_refl in Hhere.
    cbn [andb] in Hhere.
    pose proof (first_line_startsWith s p Hp) as Hfirst.
    pose proof (split_nonempty "010" s) as Hne.
    specialize (IH Hlater).
    destruct (RepoUrl.split "010" s) as [|part parts]; [congruence |].
    cbn [hd tl find] in *. now rewrite Hfirst, Hhere.
  - pose proof (split_nonempty "010" s) as Hne.
    specialize (IH Hlater).
    destruct (RepoUrl.split "010" s) as [|part parts]; [congruence |].
    exact IH.
Qed.

(** X18. The title read from a generated document. When the first line that
    starts with [# ] is the heading that the prompt asks for,
    [# <title> - Changelog], the title is what stands between; a document
    in which no line starts with [# ] gets the title [Changelog]. *)
Theorem extractTitle_of_heading :
  (forall (before : list string) (title rest : string),
      Forall noLF before ->
      Forall (fun line => startsWith line "# " = false) before ->
      noLF title -> title <> "" -> startsPlain title ->
      Summarizer.extractTitle
        (unlines before ++ "# " ++ title ++ " - Changelog" ++ LF ++ rest)
      = title)
  /\ (forall content : string,
         startsWith content "# " = false ->
         includes content (LF ++ "# ") = false ->
         Summarizer.extractTitle content = "Changelog").
Proof.
  split.
  - intros before title rest Hbefore Hplain Htitle Hne Hstart.
    unfold Summarizer.extractTitle. cbv zeta.
    rewrite (split_unlines before _ Hbefore).
    replace ("# " ++ title ++ " - Changelog" ++ LF ++ rest)
      with (("# " ++ title ++ " - Changelog") ++ String "010" rest)
      by (now rewrite !append_assoc).
    rewrite split_first_line.
    + rewrite (find_app_none _ _ _ Hplain). cbn [find].
      change (startsWith ("# " ++ title ++ " - Changelog") "# ")
        with (startsWith (title ++ " - Changelog") "").
      rewrite startsWith_empty.
      change (drop 2 ("# " ++ title ++ " - Changelog"))
        with (title ++ " - Changelog").
      unfold Summarizer.trim.
      rewrite (skipSpace_plain (title ++ " - Changelog"))
        by (now apply startsPlain_append).
      replace (title ++ " - Changelog")
        with ((title ++ " - Changelo") ++ "g")
        by (now rewrite append_assoc).
      rewrite trimEnd_ends by reflexivity.
      rewrite append_assoc. apply dropSuffix_append.
    + apply allOf_append. split; [reflexivity |].
      apply allOf_append. split; [exact Htitle | reflexivity].
  - intros content Hfirst Hlater. unfold Summarizer.extractTitle. cbv zeta.
    pose proof (first_line_startsWith content "# " eq_refl) as Hhd.
    pose proof (later_lines_startsWith content "# " eq_refl Hlater) as Htl.
    pose proof (split_nonempty "010" content) as Hne.
    destruct (RepoUrl.split "010" content) as [|line lines]; [congruence |].
    cbn [hd tl find] in *. now rewrite Hhd, Hfirst, Htl.
Qed.

Lemma extractTitle_of_heading_witness :
  Summarizer.extractTitle
    ("Here is the changelog." ++ LF ++ "# Bug Fix Release - Changelog" ++ LF
     ++ "**2024-01-01 - 2024-01-08**" ++ LF)
  = "Bug Fix Release"
  /\ Summarizer.extractTitle ("## Added" ++ LF ++ "- login" ++ LF) = "Changelog".
Proof.
  split.
  - apply (proj1 extractTitle_of_heading ["Here is the changelog."]
             "Bug Fix Release" ("**2024-01-01 - 2024-01-08**" ++ LF)).
    + repeat constructor.
    + repeat constructor.
    + reflexivity.
    + discriminate.
    + reflexivity.
  - apply (proj2 extractTitle_of_heading); reflexivity.
Defined.

(** ** The repository just used *)

Lemma sorted_repositories_head (repos : list Store.RepositoryRecord)
  (r : Store.RepositoryRecord) (rest : list Store.RepositoryRecord) :
  sortWith Store.byLastUsed repos = r :: rest ->
  In r repos
  /\ forall r', In r' repos -> (Store.lastUsed r' <= Store.lastUsed r)%Z.
Proof.
  intros Hs.
  pose proof (sortWith_byLastUsed_sorted repos) as Hsorted.
  pose proof (sortBy_perm (fun a b => (Store.byLastUsed a b <=? 0)%Z) repos)
    as Hperm.
  fold (sortWith Store.byLastUsed repos) in Hperm.
  rewrite Hs in Hsorted, Hperm. split.
  - eapply Permutation_in; [exact Hperm | now left].
  - intros r' Hr'.
    apply (Permutation_in _ (Permutation_sym Hperm)) in Hr'.
    inversion Hsorted as [|? ? _ Hall]; subst.
    destruct Hr' as [<- | Hr']; [lia |].
    rewrite Forall_forall in Hall. now apply Hall.
Qed.

(** X19. A repository saved at a time later than every time in the table is
    the first of the recent repositories, with that time. *)
Theorem saved_repository_is_listed_first :
  forall (now : Z) (u n : string) (db : Store.DB) (limit : nat),
    (forall r, In r (Store.repositories db) -> (Store.lastUsed r < now)%Z) ->
    (0 < limit)%nat ->
    exists r rest,
      Store.getRecentRepositories limit (Store.saveRepository now u n db)
      = r :: rest
      /\ Store.url r = u
      /\ Store.lastUsed r = now.
Proof.
  intros now u n db limit Hold Hlimit. unfold Store.getRecentRepositories.
  set (saved := Store.repositories (Store.saveRepository now u n db)).
  assert (Hsaved : exists x, In x saved /\ Store.url x = u
                             /\ Store.lastUsed x = now
                             /\ forall y, In y saved -> y = x
                                          \/ (Store.lastUsed y < now)%Z).
  { unfold saved.
    destruct (saveRepository_repositories now u n db)
      as [(before & r & after & Hl & Hr & _ & ->) | [_ ->]].
    - exists (Store.touch now r). repeat split.
      + apply (Permutation_in _ (Permutation_sym (sortBy_perm _ _))).
        apply in_elt.
      + exact Hr.
      + intros y Hy. apply (Permutation_in _ (sortBy_perm _ _)) in Hy.
        apply in_app_or in Hy as [Hy | [<- | Hy]]; [right | now left | right];
          apply Hold; rewrite Hl; apply in_or_app; [now left |].
        right. now right.
    - exists {| Store.url := u; Store.name := n; Store.lastUsed := now |}.
      repeat split.
      + apply (Permutation_in _ (Permutation_sym (sortBy_perm _ _))).
        apply in_or_app. right. now left.
      + intros y Hy. apply (Permutation_in _ (sortBy_perm _ _)) in Hy.
        apply in_app_or in Hy as [Hy | [<- | []]]; [right | now left].
        now apply Hold. }
  destruct Hsaved as (x & Hx & Hu & Ht & Hothers).
  destruct (sortWith Store.byLastUsed saved) as [|r rest] eqn:Hs.
  - pose proof (sortBy_perm (fun a b => (Store.byLastUsed a b <=? 0)%Z) saved)
      as Hperm.
    fold (sortWith Store.byLastUsed saved) in Hperm. rewrite Hs in Hperm.
    apply Permutation_nil in Hperm. rewrite Hperm in Hx. destruct Hx.
  - destruct (sorted_repositories_head saved r rest Hs) as [Hr Hmax].
    destruct limit as [|limit]; [lia |].
    exists r, (firstn limit rest). split; [reflexivity |].
    specialize (Hmax x Hx).
    destruct (Hothers r Hr) as [-> | Hless]; [now split | lia].
Qed.

Lemma saved_repository_is_listed_first_witness :
  exists r rest,
    Store.getRecentRepositories 5
      (Store.saveRepository 3000 "https://github.com/acme/widgets" "w" sample)
    = r :: rest
    /\ Store.url r = "https://github.com/acme/widgets"
    /\ Store.lastUsed r = 3000%Z.
Proof.
  apply (saved_repository_is_listed_first 3000
           "https://github.com/acme/widgets" "w" sample 5).
  - intros r [<- | [<- | []]]; reflexivity.
  - lia.
Defined.
